(** * The sub-step canvas of the task detail modal

    A shallow embedding of the canvas logic of
    [src/components/TaskDetailModal.tsx] (module [TaskDetailModal]) and of
    the second variant of the same component kept in
    [src/unnamed/part_000] (module [Part000]): grid layout, drag clamping,
    connector geometry and the graph mutations on the sub-step list.

    Conventions of the embedding:
    - a JavaScript array is a [list]; [Array.prototype.find] and
      [findIndex] are stdpp's [list_find] (first match, with its index);
    - an optional property ([position?], [nextSubStepIds?], ...) is an
      [option]; a property set to [undefined] and a missing property are
      both [None];
    - pixel coordinates are integers ([Z]); every constant of the code is
      an integer and [CARD_HEIGHT / 2] is exact;
    - component state ([useState], [useRef]) is one record, threaded
      explicitly through the event handlers; props, DOM measurements and
      the user's answer to [confirm] are arguments of the handlers. *)

From Stdlib Require Import ZArith Lia.
From stdpp Require Import base option list strings gmap.

Local Open Scope string_scope.
Local Open Scope list_scope.

(** ** Data model (the declarations imported from [../types]) *)

Record Point := { x : Z; y : Z }.

Record CanvasSize := { width : Z; height : Z }.

Record ActionItem := {
  ai_id : string;
  ai_text : string;
  completed : bool;
}.

Inductive SubStepStatus := NOT_STARTED | IN_PROGRESS | COMPLETED.

(** The fields of [SubStep] the two components read or write. *)
Record SubStep := {
  id : string;
  text : string;
  notes : option string;
  position : option Point;
  actionItems : option (list ActionItem);
  nextSubStepIds : option (list string);
  status : option SubStepStatus;
  responsible : option string;
  dueDate : option string;
}.

(** [{ ...ss, position: p }] *)
Definition with_position (p : option Point) (ss : SubStep) : SubStep :=
  {| id := id ss; text := text ss; notes := notes ss; position := p;
     actionItems := actionItems ss; nextSubStepIds := nextSubStepIds ss;
     status := status ss; responsible := responsible ss;
     dueDate := dueDate ss |}.

(** [{ ...ss, nextSubStepIds: ids }] *)
Definition with_nextSubStepIds (ids : option (list string)) (ss : SubStep)
  : SubStep :=
  {| id := id ss; text := text ss; notes := notes ss;
     position := position ss; actionItems := actionItems ss;
     nextSubStepIds := ids; status := status ss;
     responsible := responsible ss; dueDate := dueDate ss |}.

(** [{ ...ss, actionItems: items }] *)
Definition with_actionItems (items : option (list ActionItem)) (ss : SubStep)
  : SubStep :=
  {| id := id ss; text := text ss; notes := notes ss;
     position := position ss; actionItems := items;
     nextSubStepIds := nextSubStepIds ss; status := status ss;
     responsible := responsible ss; dueDate := dueDate ss |}.

(** [EditableExtendedTaskDetails]: the sub-steps and the declared canvas
    size; the free-text fields, attachments and decisions are carried
    along unchanged by every handler below ([...prev]) and are left out. *)
Record EditableExtendedTaskDetails := {
  subSteps : list SubStep;
  subStepCanvasSize : option CanvasSize;
}.

Definition with_subSteps (l : list SubStep) (d : EditableExtendedTaskDetails)
  : EditableExtendedTaskDetails :=
  {| subSteps := l; subStepCanvasSize := subStepCanvasSize d |}.

(** The proposals confirmed in the review dialog. *)
Record Proposal := { title : string; description : string }.

Record ActionItemProposal := { targetSubStepId : string; item_title : string }.

Record Additions := {
  newSubSteps : list Proposal;
  newActionItems : list ActionItemProposal;
}.

(** The prop [generateUniqueId : (prefix: string) => string] is supplied by
    the caller and is not pure; it is a function on an explicit generator
    state. *)
Class UniqueIdGen (G : Type) := generateUniqueId : string → G → string * G.

(** ** JavaScript helpers *)

(** [v || 0] on an optional number: [undefined] and [0] are falsy. *)
Definition orZero (v : option Z) : Z :=
  match v with
  | Some n => if decide (n = 0%Z) then 0%Z else n
  | None => 0%Z
  end.

(** [Math.max(0, Math.min(v, hi))] *)
Definition clamp (v hi : Z) : Z := Z.max 0 (Z.min v hi).

(** [subSteps.find(ss => ss.id === wanted)] *)
Definition find_id (wanted : string) (l : list SubStep) : option SubStep :=
  snd <$> list_find (λ ss, id ss = wanted) l.

(** [subSteps.findIndex(ss => ss.id === wanted)], [None] for [-1]. *)
Definition findIndex_id (wanted : string) (l : list SubStep) : option nat :=
  fst <$> list_find (λ ss, id ss = wanted) l.

(** Insertion into a JavaScript [Set]: a value already present keeps its
    place, a new value goes last. *)
Definition Set_add (acc : list string) (v : string) : list string :=
  if decide (v ∈ acc) then acc else acc ++ [v].

(** [Array.from(new Set(l))]: the values of [l] in order of first
    occurrence. *)
Definition Array_from_Set (l : list string) : list string :=
  foldl Set_add [] l.

(** [o || []] *)
Definition orEmpty {A} (o : option (list A)) : list A := default [] o.

(** ** Connectors and DOM measurements *)

Record ConnectorInfo := {
  conn_id : string;
  conn_from : Point;
  conn_to : Point;
  sourceId : string;
  targetId : string;
}.

(** What the handlers read from a mounted container element:
    [getBoundingClientRect()] and the scroll offsets. *)
Record Container := {
  rect_left : Z;
  rect_top : Z;
  rect_width : Z;
  rect_height : Z;
  scrollLeft : Z;
  scrollTop : Z;
}.

Record PointerEvent := { clientX : Z; clientY : Z }.

(** The inline style of a rendered card. *)
Record CardStyle := { style_left : Z; style_top : Z }.

Definition CARD_WIDTH : Z := 200.
Definition CARD_HEIGHT : Z := 120.
Definition HORIZONTAL_SPACING : Z := 250.
Definition VERTICAL_SPACING : Z := 150.

(** The object literal both layout handlers build for the card at
    [index], with the component's own margin constant. *)
Definition gridPosition (margin : Z) (index : nat) : Point :=
  {| x := margin + (Z.of_nat index mod 3) * HORIZONTAL_SPACING;
     y := margin + (Z.of_nat index / 3) * VERTICAL_SPACING |}.

(** [style={{ left: subStep.position?.x || 0, top: subStep.position?.y || 0 }}],
    the same expression in [renderSubStepCard] and in [SubStepCard]. *)
Definition cardStyle (subStep : SubStep) : CardStyle :=
  {| style_left := orZero (x <$> position subStep);
     style_top := orZero (y <$> position subStep) |}.

(** ** Edits issued by the detail panel *)

#[global] Instance SubStepStatus_eq_dec : EqDecision SubStepStatus.
Proof. solve_decision. Defined.

(** The object literals the inputs of the detail panel pass to
    [handleUpdateSubStep]: [{ text }], [{ status }], [{ responsible }],
    [{ dueDate }], [{ notes }]. *)
Inductive SubStepEdit :=
  | EditText (v : string)
  | EditStatus (v : SubStepStatus)
  | EditResponsible (v : string)
  | EditDueDate (v : string)
  | EditNotes (v : string).

(** [{ ...ss, ...updates }] for such a literal. *)
Definition applySubStepEdit (edit : SubStepEdit) (ss : SubStep) : SubStep :=
  {| id := id ss;
     text := match edit with EditText v => v | _ => text ss end;
     notes := match edit with EditNotes v => Some v | _ => notes ss end;
     position := position ss;
     actionItems := actionItems ss;
     nextSubStepIds := nextSubStepIds ss;
     status := match edit with EditStatus v => Some v | _ => status ss end;
     responsible :=
       match edit with EditResponsible v => Some v | _ => responsible ss end;
     dueDate := match edit with EditDueDate v => Some v | _ => dueDate ss end |}.

(** The literals passed to [handleUpdateActionItem]: the checkbox
    ([{ completed, completedDate }], the date is not part of the model) and
    the text input ([{ text }]). *)
Inductive ActionItemEdit :=
  | EditCompleted (v : bool)
  | EditItemText (v : string).

Definition applyActionItemEdit (edit : ActionItemEdit) (ai : ActionItem)
  : ActionItem :=
  {| ai_id := ai_id ai;
     ai_text := match edit with EditItemText v => v | _ => ai_text ai end;
     completed := match edit with EditCompleted v => v | _ => completed ai end |}.

(** ** [src/components/TaskDetailModal.tsx] *)

Module TaskDetailModal.

Record Connecting := { fromId : string; fromPos : Point }.

(** The state of the component that the canvas handlers touch. *)
Record ModalState := {
  extendedDetails : EditableExtendedTaskDetails;
  selectedSubStep : option SubStep;
  isProposalModalOpen : bool;
  subStepCardRefs : gset string;   (* keys of the Map of card refs *)
  connectors : list ConnectorInfo;
  connectingState : option Connecting;
  mousePos : Point;
  draggedSubStepIdRef : option string;
  dragOffsetRef : Point;
}.

Definition setExtendedDetails (d : EditableExtendedTaskDetails)
    (st : ModalState) : ModalState :=
  {| extendedDetails := d; selectedSubStep := selectedSubStep st;
     isProposalModalOpen := isProposalModalOpen st;
     subStepCardRefs := subStepCardRefs st; connectors := connectors st;
     connectingState := connectingState st; mousePos := mousePos st;
     draggedSubStepIdRef := draggedSubStepIdRef st;
     dragOffsetRef := dragOffsetRef st |}.

(** [setExtendedDetails(prev => ({ ...prev, subSteps: l }))] *)
Definition setSubSteps (l : list SubStep) (st : ModalState) : ModalState :=
  setExtendedDetails (with_subSteps l (extendedDetails st)) st.

Definition setSelectedSubStep (s : option SubStep) (st : ModalState)
  : ModalState :=
  {| extendedDetails := extendedDetails st; selectedSubStep := s;
     isProposalModalOpen := isProposalModalOpen st;
     subStepCardRefs := subStepCardRefs st; connectors := connectors st;
     connectingState := connectingState st; mousePos := mousePos st;
     draggedSubStepIdRef := draggedSubStepIdRef st;
     dragOffsetRef := dragOffsetRef st |}.

Definition setIsProposalModalOpen (b : bool) (st : ModalState) : ModalState :=
  {| extendedDetails := extendedDetails st;
     selectedSubStep := selectedSubStep st; isProposalModalOpen := b;
     subStepCardRefs := subStepCardRefs st; connectors := connectors st;
     connectingState := connectingState st; mousePos := mousePos st;
     draggedSubStepIdRef := draggedSubStepIdRef st;
     dragOffsetRef := dragOffsetRef st |}.

Definition setSubStepCardRefs (r : gset string) (st : ModalState)
  : ModalState :=
  {| extendedDetails := extendedDetails st;
     selectedSubStep := selectedSubStep st;
     isProposalModalOpen := isProposalModalOpen st;
     subStepCardRefs := r; connectors := connectors st;
     connectingState := connectingState st; mousePos := mousePos st;
     draggedSubStepIdRef := draggedSubStepIdRef st;
     dragOffsetRef := dragOffsetRef st |}.

Definition setConnectors (c : list ConnectorInfo) (st : ModalState)
  : ModalState :=
  {| extendedDetails := extendedDetails st;
     selectedSubStep := selectedSubStep st;
     isProposalModalOpen := isProposalModalOpen st;
     subStepCardRefs := subStepCardRefs st; connectors := c;
     connectingState := connectingState st; mousePos := mousePos st;
     draggedSubStepIdRef := draggedSubStepIdRef st;
     dragOffsetRef := dragOffsetRef st |}.

Definition setConnectingState (c : option Connecting) (st : ModalState)
  : ModalState :=
  {| extendedDetails := extendedDetails st;
     selectedSubStep := selectedSubStep st;
     isProposalModalOpen := isProposalModalOpen st;
     subStepCardRefs := subStepCardRefs st; connectors := connectors st;
     connectingState := c; mousePos := mousePos st;
     draggedSubStepIdRef := draggedSubStepIdRef st;
     dragOffsetRef := dragOffsetRef st |}.

Definition setMousePos (p : Point) (st : ModalState) : ModalState :=
  {| extendedDetails := extendedDetails st;
     selectedSubStep := selectedSubStep st;
     isProposalModalOpen := isProposalModalOpen st;
     subStepCardRefs := subStepCardRefs st; connectors := connectors st;
     connectingState := connectingState st; mousePos := p;
     draggedSubStepIdRef := draggedSubStepIdRef st;
     dragOffsetRef := dragOffsetRef st |}.

(** Assignments to [draggedSubStepIdRef.current] and
    [dragOffsetRef.current]. *)
Definition setDragged (d : option string) (st : ModalState) : ModalState :=
  {| extendedDetails := extendedDetails st;
     selectedSubStep := selectedSubStep st;
     isProposalModalOpen := isProposalModalOpen st;
     subStepCardRefs := subStepCardRefs st; connectors := connectors st;
     connectingState := connectingState st; mousePos := mousePos st;
     draggedSubStepIdRef := d; dragOffsetRef := dragOffsetRef st |}.

Definition setDragOffset (p : Point) (st : ModalState) : ModalState :=
  {| extendedDetails := extendedDetails st;
     selectedSubStep := selectedSubStep st;
     isProposalModalOpen := isProposalModalOpen st;
     subStepCardRefs := subStepCardRefs st; connectors := connectors st;
     connectingState := connectingState st; mousePos := mousePos st;
     draggedSubStepIdRef := draggedSubStepIdRef st; dragOffsetRef := p |}.

(** The node set of a state. *)
Definition nodes (st : ModalState) : list SubStep :=
  subSteps (extendedDetails st).

(** The effect "Initialize subStep card refs": one key per sub-step id. *)
Definition initCardRefs (st : ModalState) : ModalState :=
  setSubStepCardRefs (list_to_set (id <$> nodes st)) st.

(** The body of the inner [forEach] of [calculateConnectors] for one
    [targetId]: [None] is the early [return] on an unresolved target. *)
Definition connectorTo (all : list SubStep) (sourceSubStep : SubStep)
    (sourcePos : Point) (targetId : string) : option ConnectorInfo :=
  match find_id targetId all with
  | None => None
  | Some targetSubStep =>
      let targetX := orZero (x <$> position targetSubStep) in
      let targetY := orZero (y <$> position targetSubStep) in
      let targetPos := {| x := targetX; y := (targetY + CARD_HEIGHT / 2)%Z |} in
      Some {| conn_id := "conn-" +:+ id sourceSubStep +:+ "-" +:+ targetId;
              conn_from := sourcePos;
              conn_to := targetPos;
              sourceId := id sourceSubStep;
              targetId := targetId |}
  end.

(** The body of the outer [forEach] for one source sub-step. *)
Definition connectorsOf (all : list SubStep) (sourceSubStep : SubStep)
  : list ConnectorInfo :=
  match nextSubStepIds sourceSubStep with
  | Some ((_ :: _) as ids) =>
      let sourceX := orZero (x <$> position sourceSubStep) in
      let sourceY := orZero (y <$> position sourceSubStep) in
      let sourcePos := {| x := (sourceX + CARD_WIDTH)%Z;
                          y := (sourceY + CARD_HEIGHT / 2)%Z |} in
      omap (connectorTo all sourceSubStep sourcePos) ids
  | _ => []
  end.

(** The array [newConnectors] after both loops. *)
Definition newConnectors (all : list SubStep) : list ConnectorInfo :=
  all ≫= connectorsOf all.

Definition calculateConnectors (flowContainerRef : option Container)
    (st : ModalState) : ModalState :=
  if bool_decide (flowContainerRef = None)
     || bool_decide (size (subStepCardRefs st) = 0%nat)
  then setConnectors [] st
  else setConnectors (newConnectors (nodes st)) st.

Definition PADDING : Z := 20.

(** [handleAutoLayoutSubSteps]. The guard [!extendedDetails.subSteps]
    never fires on an array. The closing call of [calculateConnectors] is
    the closure of the current render, so it reads the sub-steps as they
    were before the layout. The call of the persistence callback
    [onUpdateTask] is outside the model. *)
Definition handleAutoLayoutSubSteps (flowContainerRef : option Container)
    (st : ModalState) : ModalState :=
  let updatedSubSteps :=
    imap (λ index subStep,
            with_position (Some (gridPosition PADDING index)) subStep)
         (nodes st) in
  let updatedDetails := with_subSteps updatedSubSteps (extendedDetails st) in
  setExtendedDetails updatedDetails (calculateConnectors flowContainerRef st).

Definition handleSubStepDragStart (canEdit : bool)
    (flowContainerRef : option Container) (event : PointerEvent)
    (subStepId : string) (st : ModalState) : ModalState :=
  if negb canEdit then st else
  let st1 := setDragged (Some subStepId) st in
  let subStep := find_id subStepId (nodes st) in
  match flowContainerRef with
  | Some c =>
      setDragOffset
        {| x := (clientX event - rect_left c
                 - orZero (x <$> (subStep ≫= position)))%Z;
           y := (clientY event - rect_top c
                 - orZero (y <$> (subStep ≫= position)))%Z |} st1
  | None => st1
  end.

Definition defaultCanvasSize : CanvasSize := {| width := 1200; height := 800 |}.

(** [handleSubStepDrop]; the deferred [calculateConnectors] runs after the
    handler and is applied separately. *)
Definition handleSubStepDrop (canEdit : bool)
    (flowContainerRef : option Container) (event : PointerEvent)
    (st : ModalState) : ModalState :=
  match draggedSubStepIdRef st, flowContainerRef with
  | Some dragged, Some c =>
      (* [!draggedSubStepIdRef.current] also holds for the empty string *)
      if bool_decide (dragged = "") || negb canEdit then st else
      let newX := (clientX event - rect_left c - x (dragOffsetRef st))%Z in
      let newY := (clientY event - rect_top c - y (dragOffsetRef st))%Z in
      let canvasSize :=
        default defaultCanvasSize (subStepCanvasSize (extendedDetails st)) in
      let newX := clamp newX (width canvasSize - CARD_WIDTH) in
      let newY := clamp newY (height canvasSize - CARD_HEIGHT) in
      let updatedSubSteps :=
        (λ ss, if decide (id ss = dragged)
               then with_position (Some {| x := newX; y := newY |}) ss
               else ss) <$> nodes st in
      setDragged None (setSubSteps updatedSubSteps st)
  | _, _ => st
  end.

Definition handleStartConnection (canEdit : bool)
    (flowContainerRef : option Container) (subStepId : string)
    (event : PointerEvent) (st : ModalState) : ModalState :=
  match flowContainerRef with
  | Some c =>
      if negb canEdit then st else
      let fromPos := {| x := (clientX event - rect_left c + scrollLeft c)%Z;
                        y := (clientY event - rect_top c + scrollTop c)%Z |} in
      setConnectingState (Some {| fromId := subStepId; fromPos := fromPos |}) st
  | None => st
  end.

Definition handleEndConnection (canEdit : bool) (targetSubStepId : string)
    (st : ModalState) : ModalState :=
  match connectingState st with
  | Some cs =>
      if bool_decide (fromId cs = targetSubStepId) || negb canEdit
      then setConnectingState None st
      else
        let updatedSubSteps :=
          (λ ss, if decide (id ss = fromId cs)
                 then
                   let newNextSubStepIds :=
                     Array_from_Set
                       (orEmpty (nextSubStepIds ss) ++ [targetSubStepId]) in
                   with_nextSubStepIds (Some newNextSubStepIds) ss
                 else ss) <$> nodes st in
        setConnectingState None (setSubSteps updatedSubSteps st)
  | None => setConnectingState None st
  end.

Definition handleDeleteConnection (canEdit : bool)
    (sourceSubStepId targetSubStepId : string) (st : ModalState)
  : ModalState :=
  if negb canEdit then st else
  let updatedSubSteps :=
    (λ ss, if decide (id ss = sourceSubStepId)
           then
             let newNextSubStepIds :=
               filter (λ i, i ≠ targetSubStepId)
                      (orEmpty (nextSubStepIds ss)) in
             with_nextSubStepIds (Some newNextSubStepIds) ss
           else ss) <$> nodes st in
  setSubSteps updatedSubSteps st.

Definition handleMouseMove (flowContainerRef : option Container)
    (event : PointerEvent) (st : ModalState) : ModalState :=
  match connectingState st, flowContainerRef with
  | Some _, Some c =>
      setMousePos {| x := (clientX event - rect_left c + scrollLeft c)%Z;
                     y := (clientY event - rect_top c + scrollTop c)%Z |} st
  | _, _ => st
  end.

Definition handleMouseUp (st : ModalState) : ModalState :=
  match connectingState st with
  | Some _ => setConnectingState None st
  | None => st
  end.

Definition NEW_SUBSTEP_TEXT : string := "新しいサブステップ".

Section WithGenerator.
Context {G : Type} {gen : UniqueIdGen G}.

(** The first [forEach] of [handleConfirmProposals]: one [push] per
    proposal. [updatedSubSteps.length] is read after the earlier pushes of
    the same loop. *)
Fixpoint pushProposals (proposals : list Proposal) (index : nat)
    (updatedSubSteps : list SubStep) (g : G) : list SubStep * G :=
  match proposals with
  | [] => (updatedSubSteps, g)
  | proposal :: rest =>
      let '(newId, g') := generateUniqueId "substep" g in
      let newSubStep :=
        {| id := newId;
           text := title proposal;
           notes := Some (description proposal);
           position :=
             Some {| x := (50 + (Z.of_nat (length updatedSubSteps)
                                 + Z.of_nat index) * 220)%Z;
                     y := 50%Z |};
           actionItems := Some [];
           nextSubStepIds := None; status := None;
           responsible := None; dueDate := None |} in
      pushProposals rest (S index) (updatedSubSteps ++ [newSubStep]) g'
  end.

(** The second [forEach]: the action item is appended to the first
    sub-step carrying the target id; an id is generated only when the
    target resolves. *)
Fixpoint pushActionItems (items : list ActionItemProposal)
    (updatedSubSteps : list SubStep) (g : G) : list SubStep * G :=
  match items with
  | [] => (updatedSubSteps, g)
  | item :: rest =>
      match findIndex_id (targetSubStepId item) updatedSubSteps with
      | Some targetIndex =>
          let '(newId, g') := generateUniqueId "action" g in
          let newActionItem :=
            {| ai_id := newId; ai_text := item_title item;
               completed := false |} in
          pushActionItems rest
            (alter (λ ss, with_actionItems
                            (Some (orEmpty (actionItems ss) ++ [newActionItem]))
                            ss)
                   targetIndex updatedSubSteps)
            g'
      | None => pushActionItems rest updatedSubSteps g
      end
  end.

(** [handleConfirmProposals]. The assignment
    [updatedSubSteps[targetIndex].actionItems = ...] writes into the
    sub-step object that the previous state also holds; the model returns
    the new list and leaves the previous state as a value. *)
Definition handleConfirmProposals (additions : Additions)
    (st : ModalState) (g : G) : ModalState * G :=
  let '(appended, g1) := pushProposals (newSubSteps additions) 0 (nodes st) g in
  let '(updatedSubSteps, g2) :=
    pushActionItems (newActionItems additions) appended g1 in
  (setIsProposalModalOpen false (setSubSteps updatedSubSteps st), g2).

Definition handleAddSubStep (canEdit : bool) (st : ModalState) (g : G)
  : ModalState * G :=
  if negb canEdit then (st, g) else
  let '(newId, g') := generateUniqueId "substep" g in
  let newSubStep :=
    {| id := newId;
       text := NEW_SUBSTEP_TEXT;
       notes := Some "";
       position :=
         Some {| x := (50 + Z.of_nat (length (nodes st)) * 220)%Z;
                 y := 50%Z |};
       actionItems := Some [];
       nextSubStepIds := None; status := None;
       responsible := None; dueDate := None |} in
  (setSubSteps (nodes st ++ [newSubStep]) st, g').

End WithGenerator.

(** [handleRemoveSubStep]; [confirmed] is the answer of the [confirm]
    dialog, which is only asked when [canEdit] holds. *)
Definition handleRemoveSubStep (canEdit confirmed : bool)
    (subStepId : string) (st : ModalState) : ModalState :=
  if negb canEdit || negb confirmed then st else
  let updatedSubSteps := filter (λ ss, id ss ≠ subStepId) (nodes st) in
  let cleanedSubSteps :=
    (λ ss, with_nextSubStepIds
             (filter (λ i, i ≠ subStepId) <$> nextSubStepIds ss) ss)
      <$> updatedSubSteps in
  let st' := setSubSteps cleanedSubSteps st in
  if bool_decide (id <$> selectedSubStep st = Some subStepId)
  then setSelectedSubStep None st'
  else st'.

(** [handleUpdateSubStep]; [updates] is the spread
    [{ ...ss, ...updates }] as a function of [ss]. The selected copy gets
    the same spread. *)
Definition handleUpdateSubStep (canEdit : bool) (subStepId : string)
    (updates : SubStep → SubStep) (st : ModalState) : ModalState :=
  if negb canEdit then st else
  let updatedSubSteps :=
    (λ ss, if decide (id ss = subStepId) then updates ss else ss)
      <$> nodes st in
  let st' := setSubSteps updatedSubSteps st in
  if bool_decide (id <$> selectedSubStep st = Some subStepId)
  then setSelectedSubStep (updates <$> selectedSubStep st) st'
  else st'.

Definition NEW_ACTION_ITEM_TEXT : string := "新しいアクションアイテム".

Section ActionItems.
Context {G : Type} {gen : UniqueIdGen G}.

Definition handleAddActionItem (canEdit : bool) (subStepId : string)
    (st : ModalState) (g : G) : ModalState * G :=
  if negb canEdit then (st, g) else
  let '(newId, g') := generateUniqueId "action" g in
  let newActionItem :=
    {| ai_id := newId; ai_text := NEW_ACTION_ITEM_TEXT; completed := false |} in
  let updatedSubSteps :=
    (λ ss, if decide (id ss = subStepId)
           then with_actionItems
                  (Some (orEmpty (actionItems ss) ++ [newActionItem])) ss
           else ss) <$> nodes st in
  (setSubSteps updatedSubSteps st, g').

End ActionItems.

(** [handleUpdateActionItem]; [updates] is the spread
    [{ ...ai, ...updates }] as a function of [ai]. *)
Definition handleUpdateActionItem (canEdit : bool)
    (subStepId actionItemId : string) (updates : ActionItem → ActionItem)
    (st : ModalState) : ModalState :=
  if negb canEdit then st else
  let updatedSubSteps :=
    (λ ss, if decide (id ss = subStepId)
           then with_actionItems
                  ((λ items : list ActionItem,
                      (λ ai, if decide (ai_id ai = actionItemId)
                             then updates ai else ai) <$> items)
                     <$> actionItems ss) ss
           else ss) <$> nodes st in
  setSubSteps updatedSubSteps st.

Definition handleRemoveActionItem (canEdit confirmed : bool)
    (subStepId actionItemId : string) (st : ModalState) : ModalState :=
  if negb canEdit || negb confirmed then st else
  let updatedSubSteps :=
    (λ ss, if decide (id ss = subStepId)
           then with_actionItems
                  (filter (λ ai, ai_id ai ≠ actionItemId) <$> actionItems ss)
                  ss
           else ss) <$> nodes st in
  setSubSteps updatedSubSteps st.




Definition summaryActionItems (st : ModalState) : nat :=
  foldl (λ total ss, (total + length (orEmpty (actionItems ss)))%nat)
        0%nat (nodes st).


(** [onSave] of the action-item report dialog: the item is written back
    into the first sub-step that holds an item with its id. *)
Definition onSaveActionItemReport (canEdit : bool) (updatedItem : ActionItem)
    (st : ModalState) : ModalState :=
  match list_find
          (λ ss, Exists (λ ai, ai_id ai = ai_id updatedItem)
                        (orEmpty (actionItems ss)))
          (nodes st) with
  | Some (_, subStep) =>
      handleUpdateActionItem canEdit (id subStep) (ai_id updatedItem)
        (λ _, updatedItem) st
  | None => st
  end.

(** *** The events of the rendered canvas and detail panel

    A card, its connect handle and its delete button exist once per
    rendered sub-step, a delete control once per rendered connector, and
    the panel only while a sub-step is selected; the index says which
    rendered element the event hit. *)
Inductive UIEvent :=
  | AddClick
  | ProposalsGenerated
  | ProposalConfirm (additions : Additions)
  | ProposalClose
  | CardDragStart (i : nat) (e : PointerEvent)
  | CardMouseUp (i : nat)
  | CardClick (i : nat)
  | ConnectHandleMouseDown (i : nat) (e : PointerEvent)
  | CardRemoveClick (i : nat) (confirmed : bool)
  | CanvasDrop (e : PointerEvent)
  | CanvasMouseMove (e : PointerEvent)
  | CanvasMouseUp
  | ConnectorDelete (j : nat)
  | PanelEdit (edit : SubStepEdit)
  | PanelAddActionItem
  | PanelEditActionItem (k : nat) (edit : ActionItemEdit)
  | PanelRemoveActionItem (k : nat) (confirmed : bool).

(** The two effects that follow a change of the sub-steps: the card refs
    are rebuilt and the connectors recomputed. *)
Definition settle (flowContainerRef : option Container) (st : ModalState)
  : ModalState :=
  calculateConnectors flowContainerRef (initCardRefs st).

Section Events.
Context {G : Type} {gen : UniqueIdGen G}.

(** The handler bound to the element the event hit, as wired in
    [renderSubStepCard], [renderSubSteps] and the dialogs. Elements
    rendered under [canEdit &&] are absent in read-only mode. The
    mouse-up on a card bubbles to the canvas, whose [handleMouseUp] was
    created in the same render. *)
Definition onEvent (canEdit : bool) (flowContainerRef : option Container)
    (ev : UIEvent) (s : ModalState * G) : ModalState * G :=
  let '(st, g) := s in
  match ev with
  | AddClick => if canEdit then handleAddSubStep canEdit st g else s
  | ProposalsGenerated =>
      if canEdit then (setIsProposalModalOpen true st, g) else s
  | ProposalConfirm additions =>
      if isProposalModalOpen st then handleConfirmProposals additions st g
      else s
  | ProposalClose => (setIsProposalModalOpen false st, g)
  | CardDragStart i e =>
      match nodes st !! i with
      | Some subStep =>
          (handleSubStepDragStart canEdit flowContainerRef e (id subStep) st, g)
      | None => s
      end
  | CardMouseUp i =>
      match nodes st !! i with
      | Some subStep =>
          let st1 := handleEndConnection canEdit (id subStep) st in
          (match connectingState st with
           | Some _ => setConnectingState None st1
           | None => st1
           end, g)
      | None => s
      end
  | CardClick i =>
      match nodes st !! i with
      | Some subStep => (setSelectedSubStep (Some subStep) st, g)
      | None => s
      end
  | ConnectHandleMouseDown i e =>
      match nodes st !! i with
      | Some subStep =>
          if canEdit
          then (handleStartConnection canEdit flowContainerRef (id subStep) e st, g)
          else s
      | None => s
      end
  | CardRemoveClick i confirmed =>
      match nodes st !! i with
      | Some subStep =>
          if canEdit
          then (handleRemoveSubStep canEdit confirmed (id subStep) st, g)
          else s
      | None => s
      end
  | CanvasDrop e => (handleSubStepDrop canEdit flowContainerRef e st, g)
  | CanvasMouseMove e => (handleMouseMove flowContainerRef e st, g)
  | CanvasMouseUp => (handleMouseUp st, g)
  | ConnectorDelete j =>
      match connectors st !! j with
      | Some conn =>
          if canEdit
          then (handleDeleteConnection canEdit (sourceId conn) (targetId conn) st, g)
          else s
      | None => s
      end
  | PanelEdit edit =>
      match selectedSubStep st with
      | Some sel =>
          (handleUpdateSubStep canEdit (id sel) (applySubStepEdit edit) st, g)
      | None => s
      end
  | PanelAddActionItem =>
      match selectedSubStep st with
      | Some sel =>
          if canEdit then handleAddActionItem canEdit (id sel) st g else s
      | None => s
      end
  | PanelEditActionItem k edit =>
      match selectedSubStep st with
      | Some sel =>
          match orEmpty (actionItems sel) !! k with
          | Some actionItem =>
              (handleUpdateActionItem canEdit (id sel) (ai_id actionItem)
                 (applyActionItemEdit edit) st, g)
          | None => s
          end
      | None => s
      end
  | PanelRemoveActionItem k confirmed =>
      match selectedSubStep st with
      | Some sel =>
          match orEmpty (actionItems sel) !! k with
          | Some actionItem =>
              if canEdit
              then (handleRemoveActionItem canEdit confirmed (id sel)
                      (ai_id actionItem) st, g)
              else s
          | None => s
          end
      | None => s
      end
  end.

(** One event followed by the effects. *)
Definition step (canEdit : bool) (flowContainerRef : option Container)
    (s : ModalState * G) (ev : UIEvent) : ModalState * G :=
  let '(st, g) := onEvent canEdit flowContainerRef ev s in
  (settle flowContainerRef st, g).

(** A session: the events in the order they happen. *)
Definition run (canEdit : bool) (flowContainerRef : option Container)
    (evs : list UIEvent) (s : ModalState * G) : ModalState * G :=
  foldl (step canEdit flowContainerRef) s evs.

End Events.

End TaskDetailModal.

(** ** [src/unnamed/part_000]: the variant without connectors *)

Module Part000.

Record ModalState := {
  details : EditableExtendedTaskDetails;
  showProposalReview : bool;
}.

Definition nodes (st : ModalState) : list SubStep := subSteps (details st).

(** [setDetails(prev => ({ ...prev, subSteps: l }))] *)
Definition setSubSteps (l : list SubStep) (st : ModalState) : ModalState :=
  {| details := with_subSteps l (details st);
     showProposalReview := showProposalReview st |}.

Definition setShowProposalReview (b : bool) (st : ModalState) : ModalState :=
  {| details := details st; showProposalReview := b |}.

Definition MARGIN : Z := 50.

Definition handleAutoLayout (canEdit : bool) (st : ModalState) : ModalState :=
  if negb canEdit then st else
  let updatedSubSteps :=
    imap (λ index subStep,
            with_position (Some (gridPosition MARGIN index)) subStep)
         (nodes st) in
  setSubSteps updatedSubSteps st.

(** [updateSubStep]; [updates] is the spread [{ ...ss, ...updates }] as a
    function of [ss]. *)
Definition updateSubStep (canEdit : bool) (subStepId : string)
    (updates : SubStep → SubStep) (st : ModalState) : ModalState :=
  if negb canEdit then st else
  setSubSteps ((λ ss, if decide (id ss = subStepId) then updates ss else ss)
                 <$> nodes st) st.

Definition removeSubStep (canEdit : bool) (subStepId : string)
    (st : ModalState) : ModalState :=
  if negb canEdit then st else
  setSubSteps (filter (λ ss, id ss ≠ subStepId) (nodes st)) st.

(** [handleMouseMove] of [SubStepCard]: [container] is the element found
    by [document.querySelector]; the new position is handed to
    [onUpdate], which is [updateSubStep] for this card. *)
Definition handleMouseMove (isDragging canEdit : bool)
    (container : option Container) (dragOffset : Point) (e : PointerEvent)
    (subStep : SubStep) (st : ModalState) : ModalState :=
  if negb isDragging || negb canEdit then st else
  match container with
  | None => st
  | Some containerRect =>
      let newX := (clientX e - rect_left containerRect - x dragOffset)%Z in
      let newY := (clientY e - rect_top containerRect - y dragOffset)%Z in
      updateSubStep canEdit (id subStep)
        (with_position
           (Some {| x := clamp newX (rect_width containerRect - 200);
                    y := clamp newY (rect_height containerRect - 120) |}))
        st
  end.

Section WithGenerator.
Context {G : Type} {gen : UniqueIdGen G}.

(** [l.map(f)] for a callback that draws ids from the generator. *)
Fixpoint mapGen {A B} (f : A → G → B * G) (l : list A) (g : G) : list B * G :=
  match l with
  | [] => ([], g)
  | a :: rest =>
      let '(b, g1) := f a g in
      let '(bs, g2) := mapGen f rest g1 in
      (b :: bs, g2)
  end.

(** The callback of [additions.newSubSteps.map]: every proposed sub-step
    is placed at the first free slot of the row, computed from the
    sub-steps that existed before the merge. *)
Definition proposedSubStep (st : ModalState) (proposal : Proposal) (g : G)
  : SubStep * G :=
  let '(newId, g') := generateUniqueId "substep" g in
  ({| id := newId;
      text := title proposal;
      notes := Some (description proposal);
      position :=
        Some {| x := (50 + Z.of_nat (length (nodes st)) * 250)%Z;
                y := 50%Z |};
      actionItems := Some [];
      nextSubStepIds := None; status := None;
      responsible := None; dueDate := None |}, g').

(** The callback of [newActionItemsForThisSubStep.map]. *)
Definition proposedActionItem (item : ActionItemProposal) (g : G)
  : ActionItem * G :=
  let '(newId, g') := generateUniqueId "action" g in
  ({| ai_id := newId; ai_text := item_title item; completed := false |}, g').

(** The callback of the [map] over the old and the new sub-steps. *)
Definition withNewActionItems (items : list ActionItemProposal)
    (subStep : SubStep) (g : G) : SubStep * G :=
  let newActionItemsForThisSubStep :=
    filter (λ item, targetSubStepId item = id subStep) items in
  match newActionItemsForThisSubStep with
  | _ :: _ =>
      let '(newActionItems, g') :=
        mapGen proposedActionItem newActionItemsForThisSubStep g in
      (with_actionItems
         (Some (orEmpty (actionItems subStep) ++ newActionItems)) subStep, g')
  | [] => (subStep, g)
  end.

Definition handleConfirmProposals (additions : Additions)
    (st : ModalState) (g : G) : ModalState * G :=
  let '(newSubSteps, g1) :=
    mapGen (proposedSubStep st) (newSubSteps additions) g in
  let '(updatedSubSteps, g2) :=
    mapGen (withNewActionItems (newActionItems additions))
           (nodes st ++ newSubSteps) g1 in
  (setShowProposalReview false (setSubSteps updatedSubSteps st), g2).

Definition addSubStep (canEdit : bool) (st : ModalState) (g : G)
  : ModalState * G :=
  if negb canEdit then (st, g) else
  let '(newId, g') := generateUniqueId "substep" g in
  let newSubStep :=
    {| id := newId;
       text := TaskDetailModal.NEW_SUBSTEP_TEXT;
       notes := None;
       position :=
         Some {| x := (50 + Z.of_nat (length (nodes st)) * 250)%Z;
                 y := 50%Z |};
       actionItems := Some [];
       nextSubStepIds := None; status := None;
       responsible := None; dueDate := None |} in
  (setSubSteps (nodes st ++ [newSubStep]) st, g').

End WithGenerator.

Section ActionItems.
Context {G : Type} {gen : UniqueIdGen G}.


End ActionItems.




(** A list preview: [l.slice(0, n)] and the count behind "N more",
    rendered only when [l.length > n]. The side panel previews 5 of the
    flattened action items, a card 3 of its own. *)
Definition previewShown {A} (n : nat) (l : list A) : list A := take n l.

Definition previewMore {A} (n : nat) (l : list A) : option nat :=
  if decide (n < length l)%nat then Some (length l - n)%nat else None.

End Part000.

(** ** Notions used in the statements *)

(** The right-centre of the source card, as [sourcePos] is computed. *)
Definition sourcePosOf (source : SubStep) : Point :=
  {| x := (orZero (x <$> position source) + CARD_WIDTH)%Z;
     y := (orZero (y <$> position source) + CARD_HEIGHT / 2)%Z |}.

(** The connect gesture on a mounted canvas with editing enabled:
    pointer-down on the handle of [source], pointer-up over the card of
    [target]. *)
Definition connect (canvas : Container) (down : PointerEvent)
    (source target : string) (st : TaskDetailModal.ModalState)
  : TaskDetailModal.ModalState :=
  TaskDetailModal.handleEndConnection true target
    (TaskDetailModal.handleStartConnection true (Some canvas) source down st).

(** What [handleEndConnection] does to one sub-step. *)
Definition addNext (source target : string) (ss : SubStep) : SubStep :=
  if decide (id ss = source)
  then with_nextSubStepIds
         (Some (Array_from_Set (orEmpty (nextSubStepIds ss) ++ [target]))) ss
  else ss.

(** Every id listed in some [nextSubStepIds] is the id of a sub-step of
    the set. *)
Definition referentialIntegrity (l : list SubStep) : Prop :=
  Forall (λ ss, Forall (λ i, i ∈ id <$> l) (orEmpty (nextSubStepIds ss))) l.

#[global] Instance referentialIntegrity_dec l :
  Decision (referentialIntegrity l).
Proof. unfold referentialIntegrity. apply _. Defined.

(** [ss'] stands where [ss] stood: same id, and each of its edges is an
    edge of [ss] or points to an id in [allowed]. *)
Definition keepsEdges (allowed : list string) (ss ss' : SubStep) : Prop :=
  id ss' = id ss
  ∧ ∀ i, i ∈ orEmpty (nextSubStepIds ss') →
         i ∈ orEmpty (nextSubStepIds ss) ∨ i ∈ allowed.

(** [ss'] is [ss] with the same fields except [actionItems], which has
    only grown at the end. *)
Definition growsActionItems (ss ss' : SubStep) : Prop :=
  with_actionItems None ss' = with_actionItems None ss
  ∧ ∃ added, orEmpty (actionItems ss') = orEmpty (actionItems ss) ++ added.

(** No sub-step lists its own id. *)
Definition noSelfLoops (l : list SubStep) : Prop :=
  Forall (λ ss, id ss ∉ orEmpty (nextSubStepIds ss)) l.

(** No sub-step lists an id twice. *)
Definition edgesDupFree (l : list SubStep) : Prop :=
  Forall (λ ss, NoDup (orEmpty (nextSubStepIds ss))) l.

(** No two sub-steps carry the same id. *)
Definition uniqueIds (l : list SubStep) : Prop := NoDup (id <$> l).

(** [ss'] stands where [ss] stood: same id, and its edges are edges of
    [ss], in their order. *)
Definition edgesShrink (ss ss' : SubStep) : Prop :=
  id ss' = id ss
  ∧ orEmpty (nextSubStepIds ss') `sublist_of` orEmpty (nextSubStepIds ss).

(** The stored edges, as (source id, target id), in order. *)
Definition storedEdges (l : list SubStep) : list (string * string) :=
  l ≫= (λ source, (λ tid, (id source, tid))
                     <$> orEmpty (nextSubStepIds source)).

(** The (source id, target id) of each connector. *)
Definition drawnEdges (conns : list ConnectorInfo) : list (string * string) :=
  (λ conn, (sourceId conn, targetId conn)) <$> conns.


(** Two cards with these top-left corners share some area. *)
Definition cardsOverlap (p q : Point) : Prop :=
  (Z.abs (x p - x q) < CARD_WIDTH)%Z ∧ (Z.abs (y p - y q) < CARD_HEIGHT)%Z.

(** A card with this top-left corner lies inside the canvas. *)
Definition insideCanvas (size : CanvasSize) (p : Point) : Prop :=
  (0 ≤ x p ≤ width size - CARD_WIDTH)%Z
  ∧ (0 ≤ y p ≤ height size - CARD_HEIGHT)%Z.

(** What [handleRemoveSubStep] does to the list of sub-steps. *)
Definition removeFrom (subStepId : string) (l : list SubStep) : list SubStep :=
  (λ ss, with_nextSubStepIds
           (filter (λ i, i ≠ subStepId) <$> nextSubStepIds ss) ss)
    <$> filter (λ ss, id ss ≠ subStepId) l.

(** What [handleDeleteConnection] does to one sub-step. *)
Definition dropNext (source target : string) (ss : SubStep) : SubStep :=
  if decide (id ss = source)
  then with_nextSubStepIds
         (Some (filter (λ i, i ≠ target) (orEmpty (nextSubStepIds ss)))) ss
  else ss.

(** Growth of the list of sub-steps: sub-steps without edges are appended
    and the others keep their place and id and lose at most edges. *)
Definition nodesGrow (l l' : list SubStep) : Prop :=
  ∃ news,
    Forall (λ n, nextSubStepIds n = None) news
    ∧ Forall2 edgesShrink (l ++ news) l'.

(** The three ways an event of the canvas can change the list of
    sub-steps: growth; or one id is removed with its edges; or an edge
    from [s] to the id [t] of a present sub-step, [s] other than [t], is
    added. *)
Inductive nodesStep (l : list SubStep) : list SubStep → Prop :=
  | nodesStep_grow l' : nodesGrow l l' → nodesStep l l'
  | nodesStep_remove i : nodesStep l (removeFrom i l)
  | nodesStep_connect s t :
      s ≠ t → t ∈ id <$> l → nodesStep l (addNext s t <$> l).

(** The selected copy shown in the detail panel is the stored sub-step
    with its id. *)
Definition selectionInSync (st : TaskDetailModal.ModalState) : Prop :=
  ∀ sel, TaskDetailModal.selectedSubStep st = Some sel →
         find_id (id sel) (TaskDetailModal.nodes st) = Some sel.

(** The sub-steps with the id get a present list of action items; an
    absent list becomes the empty one. *)
Definition withItemsPresent (subStepId : string) (ss : SubStep) : SubStep :=
  if decide (id ss = subStepId)
  then with_actionItems (Some (orEmpty (actionItems ss))) ss
  else ss.

(** The number of action items of all sub-steps. *)
Definition countActionItems (l : list SubStep) : nat :=
  sum_list_with (λ ss, length (orEmpty (actionItems ss))) l.

(** ** Fixtures for the concrete cases *)

(** A generator that hands out the ids of a prepared supply. *)
Definition supplyGen : UniqueIdGen (list string) :=
  λ prefix g,
    match g with
    | i :: g' => (prefix +:+ "-" +:+ i, g')
    | [] => (prefix, [])
    end.

Definition mkSubStep (i : string) (p : option Point)
    (next : option (list string)) : SubStep :=
  {| id := i; text := i; notes := None; position := p;
     actionItems := None; nextSubStepIds := next; status := None;
     responsible := None; dueDate := None |}.

Definition origin : Point := {| x := 0; y := 0 |}.

(** A settled state of the flow canvas: a declared 1200 x 800 canvas, card
    refs initialised, no gesture in progress. *)
Definition mkState (l : list SubStep) : TaskDetailModal.ModalState :=
  TaskDetailModal.initCardRefs
    {| TaskDetailModal.extendedDetails :=
         {| subSteps := l;
            subStepCanvasSize := Some {| width := 1200; height := 800 |} |};
       TaskDetailModal.selectedSubStep := None;
       TaskDetailModal.isProposalModalOpen := false;
       TaskDetailModal.subStepCardRefs := ∅;
       TaskDetailModal.connectors := [];
       TaskDetailModal.connectingState := None;
       TaskDetailModal.mousePos := origin;
       TaskDetailModal.draggedSubStepIdRef := None;
       TaskDetailModal.dragOffsetRef := origin |}.

Definition mkState000 (l : list SubStep) : Part000.ModalState :=
  {| Part000.details :=
       {| subSteps := l;
          subStepCanvasSize := Some {| width := 1200; height := 800 |} |};
     Part000.showProposalReview := false |}.

(** A container mounted at the top-left corner of the viewport. *)
Definition container0 : Container :=
  {| rect_left := 0; rect_top := 0; rect_width := 1200; rect_height := 800;
     scrollLeft := 0; scrollTop := 0 |}.

Definition fourNodes : list SubStep :=
  [mkSubStep "n1" None None; mkSubStep "n2" None None;
   mkSubStep "n3" None None; mkSubStep "n4" None None].

(** A at (0,0) with the single edge to B at (300,0). *)
Definition nodeA_to_B : list SubStep :=
  [mkSubStep "A" (Some {| x := 0; y := 0 |}) (Some ["B"]);
   mkSubStep "B" (Some {| x := 300; y := 0 |}) None].

(** A set with a dangling edge: "A" points to "B" and to a sub-step
    "gone" that is not there. *)
Definition nodesWithDangling : list SubStep :=
  [mkSubStep "A" (Some {| x := 0; y := 0 |}) (Some ["gone"; "B"]);
   mkSubStep "B" (Some {| x := 300; y := 0 |}) None].

(** Two sub-steps that have never been placed, with the edge A -> B. *)
Definition unplacedNodes : list SubStep :=
  [mkSubStep "A" None (Some ["B"]); mkSubStep "B" None None].

(** The chain A -> B -> C. *)
Definition chainABC : list SubStep :=
  [mkSubStep "A" (Some {| x := 50; y := 50 |}) (Some ["B"]);
   mkSubStep "B" (Some {| x := 270; y := 50 |}) (Some ["C"]);
   mkSubStep "C" (Some {| x := 490; y := 50 |}) None].

(** The state after the drag of card "A" has started at its top-left
    corner. *)
Definition draggingA : TaskDetailModal.ModalState :=
  TaskDetailModal.handleSubStepDragStart true (Some container0)
    {| clientX := 0; clientY := 0 |} "A"
    (mkState [mkSubStep "A" (Some origin) None]).

(** The chain A -> B -> C while a connect gesture from "A" is in
    progress. *)
Definition connectingFromA : TaskDetailModal.ModalState :=
  TaskDetailModal.handleStartConnection true (Some container0) "A"
    {| clientX := 250; clientY := 110 |} (mkState chainABC).

(** Two sub-steps, the first with two action items, the second with
    none yet. *)
Definition nodesWithItems : list SubStep :=
  [with_actionItems
     (Some [{| ai_id := "a1"; ai_text := "first"; completed := true |};
            {| ai_id := "a2"; ai_text := "second"; completed := false |}])
     (mkSubStep "A" (Some {| x := 50; y := 50 |}) (Some ["B"]));
   mkSubStep "B" (Some {| x := 300; y := 50 |}) None].

(** A session on the chain A -> B -> C: connect A to C, select B and give
    it an action item, delete B, add a sub-step, delete the first
    connector. *)
Definition sampleSession : list TaskDetailModal.UIEvent :=
  [TaskDetailModal.ConnectHandleMouseDown 0 {| clientX := 250; clientY := 110 |};
   TaskDetailModal.CardMouseUp 2;
   TaskDetailModal.CardClick 1;
   TaskDetailModal.PanelAddActionItem;
   TaskDetailModal.CardRemoveClick 1 true;
   TaskDetailModal.AddClick;
   TaskDetailModal.ConnectorDelete 0].

(** ** Properties of the helpers *)

Section SetFacts.
Implicit Types (acc l : list string) (u v : string).

Lemma Set_add_elem_of acc v u : u ∈ Set_add acc v ↔ u ∈ acc ∨ u = v.
Proof.
  unfold Set_add. case_decide as Hin.
  - split; [by left | intros [?| ->]; done].
  - rewrite elem_of_app, list_elem_of_singleton. done.
Qed.

Lemma Set_add_NoDup acc v : NoDup acc → NoDup (Set_add acc v).
Proof.
  intros Hnd. unfold Set_add. case_decide as Hin; [done|].
  apply NoDup_app. split_and!; [done| |apply NoDup_singleton].
  intros w Hw ->%list_elem_of_singleton. done.
Qed.

Lemma Set_add_present acc v : v ∈ acc → Set_add acc v = acc.
Proof. intros Hin. unfold Set_add. by rewrite decide_True. Qed.

Lemma foldl_Set_add_elem_of l acc u :
  u ∈ foldl Set_add acc l ↔ u ∈ acc ∨ u ∈ l.
Proof.
  revert acc. induction l as [|v l IH]; intros acc; simpl.
  - rewrite elem_of_nil. tauto.
  - rewrite IH, Set_add_elem_of, elem_of_cons. tauto.
Qed.

Lemma foldl_Set_add_NoDup l acc : NoDup acc → NoDup (foldl Set_add acc l).
Proof.
  revert acc. induction l as [|v l IH]; intros acc Hnd; simpl; [done|].
  by apply IH, Set_add_NoDup.
Qed.

Lemma foldl_Set_add_fresh l acc :
  NoDup (acc ++ l) → foldl Set_add acc l = acc ++ l.
Proof.
  revert acc. induction l as [|v l IH]; intros acc Hnd; simpl.
  - by rewrite app_nil_r.
  - assert (v ∉ acc) as Hv.
    { apply NoDup_app in Hnd as (_ & Hdisj & _). intros Hin.
      apply (Hdisj v Hin). by left. }
    unfold Set_add at 2. rewrite decide_False by done.
    rewrite IH; rewrite <- (assoc_L (++)); done.
Qed.

Lemma Array_from_Set_elem_of l u : u ∈ Array_from_Set l ↔ u ∈ l.
Proof.
  unfold Array_from_Set. rewrite foldl_Set_add_elem_of, elem_of_nil. tauto.
Qed.

Lemma Array_from_Set_NoDup l : NoDup (Array_from_Set l).
Proof. apply foldl_Set_add_NoDup, NoDup_nil_2. Qed.

Lemma Array_from_Set_fresh l : NoDup l → Array_from_Set l = l.
Proof. intros Hnd. unfold Array_from_Set. by rewrite foldl_Set_add_fresh. Qed.

Lemma Array_from_Set_snoc l v :
  Array_from_Set (l ++ [v]) = Set_add (Array_from_Set l) v.
Proof. unfold Array_from_Set. by rewrite foldl_app. Qed.

(** Adding a target a second time changes nothing. *)
Lemma Array_from_Set_add_twice l v :
  Array_from_Set (Array_from_Set (l ++ [v]) ++ [v]) = Array_from_Set (l ++ [v]).
Proof.
  rewrite (Array_from_Set_snoc (Array_from_Set _)).
  rewrite (Array_from_Set_fresh (Array_from_Set _)) by apply Array_from_Set_NoDup.
  apply Set_add_present, Array_from_Set_elem_of.
  rewrite elem_of_app, list_elem_of_singleton. by right.
Qed.

(** A duplicate-free list that already holds the target is left as it
    is. *)
Lemma Array_from_Set_present l v :
  NoDup l → v ∈ l → Array_from_Set (l ++ [v]) = l.
Proof.
  intros Hnd Hin. rewrite Array_from_Set_snoc, Array_from_Set_fresh by done.
  by apply Set_add_present.
Qed.

End SetFacts.

Lemma orZero_Some n : orZero (Some n) = n.
Proof. simpl. case_decide; congruence. Qed.

Lemma orZero_position (f : Point → Z) (p : Point) :
  orZero (f <$> Some p) = f p.
Proof. apply orZero_Some. Qed.

Lemma clamp_lower v hi : (0 ≤ clamp v hi)%Z.
Proof. unfold clamp. lia. Qed.

Lemma clamp_upper v hi : (0 ≤ hi)%Z → (clamp v hi ≤ hi)%Z.
Proof. unfold clamp. lia. Qed.


Lemma clamp_small_canvas v hi : (hi ≤ 0)%Z → clamp v hi = 0%Z.
Proof. unfold clamp. lia. Qed.

Section FindFacts.
Implicit Types (l : list SubStep) (ss : SubStep) (w : string).


Lemma find_id_None l w : find_id w l = None ↔ w ∉ id <$> l.
Proof.
  unfold find_id. rewrite fmap_None, list_find_None, Forall_forall.
  rewrite list_elem_of_fmap. split.
  - intros H (ss & -> & Hin). by apply (H ss).
  - intros H ss Hin Heq. apply H. exists ss. done.
Qed.

Lemma find_id_is_Some l w : is_Some (find_id w l) ↔ w ∈ id <$> l.
Proof.
  rewrite <- not_eq_None_Some, find_id_None.
  split; [apply dec_stable | by intros ? ?].
Qed.

Lemma findIndex_id_Some l w i :
  findIndex_id w l = Some i → ∃ ss, l !! i = Some ss ∧ id ss = w.
Proof.
  unfold findIndex_id. destruct (list_find _ l) as [[j s]|] eqn:Hf; [|done].
  simpl. intros [= ->]. apply list_find_Some in Hf as (Hl & Hid & _). eauto.
Qed.

Lemma findIndex_id_None l w : findIndex_id w l = None ↔ w ∉ id <$> l.
Proof.
  rewrite <- find_id_None. unfold findIndex_id, find_id.
  by rewrite !fmap_None.
Qed.

End FindFacts.

(** ** Auto-layout *)

Section Layout.
Import TaskDetailModal.

Lemma layout_lookup (margin : Z) (l : list SubStep) (i : nat) :
  imap (λ index subStep,
          with_position (Some (gridPosition margin index)) subStep) l !! i
  = with_position (Some (gridPosition margin i)) <$> l !! i.
Proof. by rewrite list_lookup_imap. Qed.

Lemma layout_twice (margin : Z) (l : list SubStep) :
  let layout :=
    imap (λ index subStep,
            with_position (Some (gridPosition margin index)) subStep) in
  layout (layout l) = layout l.
Proof.
  intros layout. apply list_eq. intros i. unfold layout.
  rewrite !layout_lookup. by destruct (l !! i).
Qed.

Lemma handleAutoLayoutSubSteps_nodes fc st :
  nodes (handleAutoLayoutSubSteps fc st)
  = imap (λ index subStep,
            with_position (Some (gridPosition PADDING index)) subStep)
         (nodes st).
Proof. reflexivity. Qed.

End Layout.

(** C3, as stated, fails: with margin 50 and vertical spacing 150 the
    fourth card (index 3) is not placed at (50, 150). *)
Lemma C3_fourth_node_not_at_50_150 :
  position <$> Part000.nodes (Part000.handleAutoLayout true
                                (mkState000 fourNodes)) !! 3%nat
  ≠ Some (Some {| x := 50; y := 150 |}).
Proof. vm_compute. discriminate. Qed.

(** C3 (amended): both layout handlers keep the input order and every
    other field, and give the card at index [i] the position
    [(margin + (i mod 3) * 250, margin + floor(i / 3) * 150)], with
    margin 50 in [handleAutoLayout] and margin 20 in
    [handleAutoLayoutSubSteps]; with margin 50 the first card lands at
    (50, 50) and the fourth at (50, 200). *)
Theorem C3_autoLayout_grid :
  (∀ (st : Part000.ModalState) (i : nat),
     Part000.nodes (Part000.handleAutoLayout true st) !! i
     = with_position
         (Some {| x := 50 + (Z.of_nat i mod 3) * 250;
                  y := 50 + (Z.of_nat i / 3) * 150 |})
       <$> Part000.nodes st !! i)
  ∧ (∀ fc (st : TaskDetailModal.ModalState) (i : nat),
       TaskDetailModal.nodes (TaskDetailModal.handleAutoLayoutSubSteps fc st) !! i
       = with_position
           (Some {| x := 20 + (Z.of_nat i mod 3) * 250;
                    y := 20 + (Z.of_nat i / 3) * 150 |})
         <$> TaskDetailModal.nodes st !! i)
  ∧ (∀ (st : Part000.ModalState) (first fourth : SubStep),
       Part000.nodes st !! 0%nat = Some first →
       Part000.nodes st !! 3%nat = Some fourth →
       Part000.nodes (Part000.handleAutoLayout true st) !! 0%nat
       = Some (with_position (Some {| x := 50; y := 50 |}) first)
       ∧ Part000.nodes (Part000.handleAutoLayout true st) !! 3%nat
         = Some (with_position (Some {| x := 50; y := 200 |}) fourth)).
Proof.
  split_and!.
  - intros st i. apply layout_lookup.
  - intros fc st i. rewrite handleAutoLayoutSubSteps_nodes.
    apply layout_lookup.
  - intros st first fourth H0 H3.
    change (Part000.nodes (Part000.handleAutoLayout true st))
      with (imap (λ index subStep,
                    with_position (Some (gridPosition Part000.MARGIN index))
                                  subStep) (Part000.nodes st)).
    rewrite !layout_lookup, H0, H3. done.
Qed.

Lemma C3_autoLayout_grid_witness :
  Part000.nodes (Part000.handleAutoLayout true (mkState000 fourNodes)) !! 0%nat
  = Some (mkSubStep "n1" (Some {| x := 50; y := 50 |}) None)
  ∧ Part000.nodes (Part000.handleAutoLayout true (mkState000 fourNodes)) !! 3%nat
    = Some (mkSubStep "n4" (Some {| x := 50; y := 200 |}) None).
Proof.
  exact (proj2 (proj2 C3_autoLayout_grid) (mkState000 fourNodes)
           (mkSubStep "n1" None None) (mkSubStep "n4" None None)
           eq_refl eq_refl).
Defined.

(** C9: laying out twice gives the same sub-steps as laying out once, in
    both components. *)
Theorem C9_autoLayout_idempotent :
  (∀ fc fc' (st : TaskDetailModal.ModalState),
     TaskDetailModal.extendedDetails
       (TaskDetailModal.handleAutoLayoutSubSteps fc'
          (TaskDetailModal.handleAutoLayoutSubSteps fc st))
     = TaskDetailModal.extendedDetails
         (TaskDetailModal.handleAutoLayoutSubSteps fc st))
  ∧ (∀ canEdit (st : Part000.ModalState),
       Part000.handleAutoLayout canEdit (Part000.handleAutoLayout canEdit st)
       = Part000.handleAutoLayout canEdit st).
Proof.
  split.
  - intros fc fc' st.
    unfold TaskDetailModal.handleAutoLayoutSubSteps at 1. simpl.
    unfold with_subSteps. f_equal.
    change (subSteps (TaskDetailModal.extendedDetails
                        (TaskDetailModal.handleAutoLayoutSubSteps fc st)))
      with (TaskDetailModal.nodes (TaskDetailModal.handleAutoLayoutSubSteps fc st)).
    rewrite handleAutoLayoutSubSteps_nodes.
    apply layout_twice.
  - intros [] st; [|done]. unfold Part000.handleAutoLayout; simpl.
    unfold Part000.setSubSteps; simpl. f_equal. unfold with_subSteps; simpl.
    f_equal. apply layout_twice.
Qed.

(** ** Dragging a card *)

Lemma handleSubStepDrop_nodes c event dragged st :
  TaskDetailModal.draggedSubStepIdRef st = Some dragged →
  dragged ≠ "" →
  TaskDetailModal.nodes (TaskDetailModal.handleSubStepDrop true (Some c) event st)
  = (λ ss,
       if decide (id ss = dragged)
       then with_position
              (Some {| x := clamp (clientX event - rect_left c
                                   - x (TaskDetailModal.dragOffsetRef st))
                                  (width (default TaskDetailModal.defaultCanvasSize
                                            (subStepCanvasSize
                                               (TaskDetailModal.extendedDetails st)))
                                   - CARD_WIDTH);
                       y := clamp (clientY event - rect_top c
                                   - y (TaskDetailModal.dragOffsetRef st))
                                  (height (default TaskDetailModal.defaultCanvasSize
                                             (subStepCanvasSize
                                                (TaskDetailModal.extendedDetails st)))
                                   - CARD_HEIGHT) |}) ss
       else ss) <$> TaskDetailModal.nodes st.
Proof.
  intros Hd Hne. unfold TaskDetailModal.handleSubStepDrop. rewrite Hd.
  rewrite bool_decide_eq_false_2 by done. reflexivity.
Qed.

(** The drag handler of the card in [part_000] clamps in the same way,
    but against the measured size of the container element instead of the
    declared canvas size. *)
Lemma Part000_handleMouseMove_nodes containerRect dragOffset e subStep st :
  Part000.nodes (Part000.handleMouseMove true true (Some containerRect)
                   dragOffset e subStep st)
  = (λ ss,
       if decide (id ss = id subStep)
       then with_position
              (Some {| x := clamp (clientX e - rect_left containerRect
                                   - x dragOffset)
                                  (rect_width containerRect - 200);
                       y := clamp (clientY e - rect_top containerRect
                                   - y dragOffset)
                                  (rect_height containerRect - 120) |}) ss
       else ss) <$> Part000.nodes st.
Proof. reflexivity. Qed.

(** [removeSubStep] of [part_000] takes the sub-step out and leaves the
    [nextSubStepIds] of the others as they are; that component neither
    draws nor creates edges. *)
Lemma Part000_removeSubStep_nodes subStepId st :
  Part000.nodes (Part000.removeSubStep true subStepId st)
  = filter (λ ss, id ss ≠ subStepId) (Part000.nodes st).
Proof. reflexivity. Qed.

(** C5: a drop moves the dragged card to the proposed position clamped
    componentwise into [0, width - 200] x [0, height - 120] of the declared
    canvas (1200 x 800 when none is declared); no proposed position is
    rejected; (9999, 9999) in a 1200 x 800 canvas becomes (1000, 680); a
    canvas smaller than the card gives coordinate 0. *)
Theorem C5_moveTo_clamps
    (c : Container) (event : PointerEvent) (dragged : string)
    (st : TaskDetailModal.ModalState) :
  TaskDetailModal.draggedSubStepIdRef st = Some dragged →
  dragged ≠ "" →
  let canvasSize :=
    default TaskDetailModal.defaultCanvasSize
            (subStepCanvasSize (TaskDetailModal.extendedDetails st)) in
  let proposedX :=
    (clientX event - rect_left c - x (TaskDetailModal.dragOffsetRef st))%Z in
  let proposedY :=
    (clientY event - rect_top c - y (TaskDetailModal.dragOffsetRef st))%Z in
  ∃ newX newY : Z,
    TaskDetailModal.nodes
      (TaskDetailModal.handleSubStepDrop true (Some c) event st)
    = (λ ss, if decide (id ss = dragged)
             then with_position (Some {| x := newX; y := newY |}) ss
             else ss) <$> TaskDetailModal.nodes st
    ∧ newX = Z.max 0 (Z.min proposedX (width canvasSize - 200))
    ∧ newY = Z.max 0 (Z.min proposedY (height canvasSize - 120))
    ∧ (0 ≤ newX)%Z ∧ (0 ≤ newY)%Z
    ∧ ((200 ≤ width canvasSize)%Z → (newX ≤ width canvasSize - 200)%Z)
    ∧ ((120 ≤ height canvasSize)%Z → (newY ≤ height canvasSize - 120)%Z)
    ∧ ((0 ≤ proposedX ≤ width canvasSize - 200)%Z → newX = proposedX)
    ∧ ((0 ≤ proposedY ≤ height canvasSize - 120)%Z → newY = proposedY)
    ∧ ((width canvasSize < 200)%Z → newX = 0%Z)
    ∧ ((height canvasSize < 120)%Z → newY = 0%Z)
    ∧ (width canvasSize = 1200%Z → proposedX = 9999%Z → newX = 1000%Z)
    ∧ (height canvasSize = 800%Z → proposedY = 9999%Z → newY = 680%Z).
Proof.
  intros Hd Hne canvasSize proposedX proposedY.
  exists (clamp proposedX (width canvasSize - CARD_WIDTH)),
         (clamp proposedY (height canvasSize - CARD_HEIGHT)).
  split; [by apply handleSubStepDrop_nodes|].
  unfold clamp, CARD_WIDTH, CARD_HEIGHT. split_and!; lia.
Qed.

Lemma C5_moveTo_clamps_witness :
  TaskDetailModal.nodes
    (TaskDetailModal.handleSubStepDrop true (Some container0)
       {| clientX := 9999; clientY := 9999 |} draggingA)
  = [mkSubStep "A" (Some {| x := 1000; y := 680 |}) None].
Proof.
  destruct (C5_moveTo_clamps container0 {| clientX := 9999; clientY := 9999 |}
              "A" draggingA eq_refl ltac:(discriminate))
    as (newX & newY & Hnodes & _ & _ & _ & _ & _ & _ & _ & _ & _ & _ & HX & HY).
  rewrite Hnodes, (HX eq_refl eq_refl), (HY eq_refl eq_refl). reflexivity.
Defined.

(** ** Connector geometry *)

Section Connectors.
Import TaskDetailModal.
Implicit Types (all : list SubStep) (source target : SubStep) (tid : string).

Lemma find_id_cons w (s : SubStep) (l : list SubStep) :
  find_id w (s :: l) = if decide (id s = w) then Some s else find_id w l.
Proof.
  unfold find_id. simpl. case_decide; [done|].
  rewrite <- option_fmap_compose. by destruct (list_find _ l) as [[]|].
Qed.

Lemma connectorsOf_omap all source :
  connectorsOf all source
  = omap (connectorTo all source (sourcePosOf source))
         (orEmpty (nextSubStepIds source)).
Proof.
  unfold connectorsOf. by destruct (nextSubStepIds source) as [[|??]|].
Qed.

Lemma calculateConnectors_mounted c st :
  size (subStepCardRefs st) ≠ 0%nat →
  connectors (calculateConnectors (Some c) st) = newConnectors (nodes st).
Proof.
  intros Hsz. unfold calculateConnectors.
  rewrite (bool_decide_eq_false_2 (Some c = None)) by done.
  by rewrite (bool_decide_eq_false_2 _ Hsz).
Qed.

Lemma calculateConnectors_subset fc st conn :
  conn ∈ connectors (calculateConnectors fc st) →
  conn ∈ newConnectors (nodes st).
Proof.
  unfold calculateConnectors. destruct (_ || _); simpl; [|done].
  by intros ?%elem_of_nil.
Qed.

(** Every connector comes from one stored edge whose target resolves, and
    every such edge gives its connector. *)
Lemma newConnectors_spec all conn :
  conn ∈ newConnectors all ↔
  ∃ source tid target,
    source ∈ all ∧ tid ∈ orEmpty (nextSubStepIds source)
    ∧ find_id tid all = Some target
    ∧ conn = {| conn_id := "conn-" +:+ id source +:+ "-" +:+ tid;
                conn_from := sourcePosOf source;
                conn_to :=
                  {| x := orZero (x <$> position target);
                     y := (orZero (y <$> position target) + CARD_HEIGHT / 2)%Z |};
                sourceId := id source;
                targetId := tid |}.
Proof.
  unfold newConnectors. rewrite list_elem_of_bind. split.
  - intros (source & Hin & Hsrc). rewrite connectorsOf_omap in Hin.
    apply list_elem_of_omap in Hin as (tid & Htid & Hto).
    unfold connectorTo in Hto.
    destruct (find_id tid all) as [target|] eqn:Hfind; [|done].
    injection Hto as <-. exists source, tid, target. done.
  - intros (source & tid & target & Hsrc & Htid & Hfind & ->).
    exists source. split; [|done]. rewrite connectorsOf_omap.
    apply list_elem_of_omap. exists tid. split; [done|].
    unfold connectorTo. by rewrite Hfind.
Qed.

(** The edges that are drawn are the stored edges, in order, without the
    dangling ones. *)
Lemma newConnectors_edges all :
  (λ conn, (sourceId conn, targetId conn)) <$> newConnectors all
  = all ≫= (λ source,
              (λ tid, (id source, tid))
                <$> filter (λ tid, tid ∈ id <$> all)
                           (orEmpty (nextSubStepIds source))).
Proof.
  unfold newConnectors.
  enough (∀ l : list SubStep,
    (λ conn, (sourceId conn, targetId conn)) <$> (l ≫= connectorsOf all)
    = l ≫= (λ source,
              (λ tid, (id source, tid))
                <$> filter (λ tid, tid ∈ id <$> all)
                           (orEmpty (nextSubStepIds source)))) as Hgen
    by apply Hgen.
  intros l. induction l as [|source l IH]; [done|].
  rewrite !bind_cons, fmap_app, IH. f_equal.
  rewrite connectorsOf_omap.
  induction (orEmpty (nextSubStepIds source)) as [|tid ids IHids]; [done|].
  rewrite filter_cons. csimpl. unfold connectorTo at 1.
  destruct (find_id tid all) as [target|] eqn:Hfind.
  - rewrite decide_True by (apply find_id_is_Some; eauto).
    csimpl. by rewrite IHids.
  - rewrite decide_False by (by apply find_id_None). done.
Qed.

End Connectors.

(** C6: for an edge source -> target between positioned cards the
    connector runs from the right-centre of the source card,
    [(x + 200, y + 60)], to the left-centre of the target card,
    [(x, y + 60)]; for A at (0,0), B at (300,0) and the single edge
    A -> B there is exactly one connector, from (200,60) to (300,60). *)
Theorem C6_connector_geometry
    (c : Container) (st : TaskDetailModal.ModalState) :
  size (TaskDetailModal.subStepCardRefs st) ≠ 0%nat →
  let drawn :=
    TaskDetailModal.connectors
      (TaskDetailModal.calculateConnectors (Some c) st) in
  (∀ source target tid ps pt,
     source ∈ TaskDetailModal.nodes st →
     tid ∈ orEmpty (nextSubStepIds source) →
     find_id tid (TaskDetailModal.nodes st) = Some target →
     position source = Some ps →
     position target = Some pt →
     {| conn_id := "conn-" +:+ id source +:+ "-" +:+ tid;
        conn_from := {| x := x ps + 200; y := y ps + 60 |};
        conn_to := {| x := x pt; y := y pt + 60 |};
        sourceId := id source;
        targetId := tid |} ∈ drawn)
  ∧ (∀ conn, conn ∈ drawn →
       ∃ source target,
         source ∈ TaskDetailModal.nodes st
         ∧ id source = sourceId conn
         ∧ targetId conn ∈ orEmpty (nextSubStepIds source)
         ∧ find_id (targetId conn) (TaskDetailModal.nodes st) = Some target
         ∧ (∀ ps, position source = Some ps →
                  conn_from conn = {| x := x ps + 200; y := y ps + 60 |})
         ∧ (∀ pt, position target = Some pt →
                  conn_to conn = {| x := x pt; y := y pt + 60 |}))
  ∧ (∀ a b,
       TaskDetailModal.nodes st = [a; b] →
       id a ≠ id b →
       position a = Some {| x := 0; y := 0 |} →
       position b = Some {| x := 300; y := 0 |} →
       nextSubStepIds a = Some [id b] →
       orEmpty (nextSubStepIds b) = [] →
       drawn = [ {| conn_id := "conn-" +:+ id a +:+ "-" +:+ id b;
                    conn_from := {| x := 200; y := 60 |};
                    conn_to := {| x := 300; y := 60 |};
                    sourceId := id a;
                    targetId := id b |} ]).
Proof.
  intros Hsz drawn. unfold drawn.
  rewrite calculateConnectors_mounted by done. split_and!.
  - intros source target tid ps pt Hsrc Htid Hfind Hps Hpt.
    apply newConnectors_spec. exists source, tid, target.
    split_and!; [done..|]. unfold sourcePosOf.
    by rewrite Hps, Hpt, !orZero_position.
  - intros conn (source & tid & target & Hsrc & Htid & Hfind & ->)%newConnectors_spec.
    exists source, target. cbn [sourceId targetId conn_from conn_to].
    split_and!; [done..| |].
    + intros ps Hps. unfold sourcePosOf. by rewrite Hps, !orZero_position.
    + intros pt Hpt. by rewrite Hpt, !orZero_position.
  - intros a b Hnodes Hab Hpa Hpb Hna Hnb. rewrite Hnodes.
    unfold TaskDetailModal.newConnectors.
    rewrite bind_cons, bind_singleton, !connectorsOf_omap, Hna, Hnb. csimpl.
    unfold TaskDetailModal.connectorTo.
    rewrite find_id_cons, decide_False by done.
    rewrite find_id_cons, decide_True by done.
    unfold sourcePosOf. rewrite Hpa, Hpb. reflexivity.
Qed.

Lemma C6_connector_geometry_witness :
  TaskDetailModal.connectors
    (TaskDetailModal.calculateConnectors (Some container0)
       (mkState nodeA_to_B))
  = [ {| conn_id := "conn-A-B";
         conn_from := {| x := 200; y := 60 |};
         conn_to := {| x := 300; y := 60 |};
         sourceId := "A";
         targetId := "B" |} ].
Proof.
  refine (proj2 (proj2 (C6_connector_geometry container0 (mkState nodeA_to_B) _))
            (mkSubStep "A" (Some {| x := 0; y := 0 |}) (Some ["B"]))
            (mkSubStep "B" (Some {| x := 300; y := 0 |}) None)
            eq_refl _ eq_refl eq_refl eq_refl eq_refl).
  - vm_compute. discriminate.
  - discriminate.
Defined.

(** C7: the connector computation is a total function of the state; every
    connector it emits has the id ["conn-" + sourceId + "-" + targetId]
    and joins two sub-steps of the set; once the container is mounted and
    the card refs exist, the emitted connectors are, in order, exactly the
    stored edges whose target resolves, so an edge to a missing sub-step
    is left out and nothing else is. *)
Theorem C7_connectors_total_and_defensive
    (fc : option Container) (st : TaskDetailModal.ModalState) :
  let drawn :=
    TaskDetailModal.connectors (TaskDetailModal.calculateConnectors fc st) in
  (∀ conn, conn ∈ drawn →
     conn_id conn = "conn-" +:+ sourceId conn +:+ "-" +:+ targetId conn
     ∧ sourceId conn ∈ id <$> TaskDetailModal.nodes st
     ∧ targetId conn ∈ id <$> TaskDetailModal.nodes st)
  ∧ (∀ tid, tid ∉ id <$> TaskDetailModal.nodes st →
       ∀ conn, conn ∈ drawn → targetId conn ≠ tid)
  ∧ (is_Some fc →
     size (TaskDetailModal.subStepCardRefs st) ≠ 0%nat →
     (λ conn, (sourceId conn, targetId conn)) <$> drawn
     = TaskDetailModal.nodes st ≫=
         (λ source,
            (λ tid, (id source, tid))
              <$> filter (λ tid, tid ∈ id <$> TaskDetailModal.nodes st)
                         (orEmpty (nextSubStepIds source)))).
Proof.
  intros drawn.
  assert (∀ conn, conn ∈ drawn →
     conn_id conn = "conn-" +:+ sourceId conn +:+ "-" +:+ targetId conn
     ∧ sourceId conn ∈ id <$> TaskDetailModal.nodes st
     ∧ targetId conn ∈ id <$> TaskDetailModal.nodes st) as Hall.
  { intros conn Hin%calculateConnectors_subset.
    apply newConnectors_spec in Hin
      as (source & tid & target & Hsrc & Htid & Hfind & ->).
    cbn [conn_id sourceId targetId]. split_and!; [done| |].
    - apply list_elem_of_fmap. eauto.
    - apply find_id_is_Some. eauto. }
  split_and!; [done| |].
  - intros tid Hout conn Hin <-. by destruct (Hall conn Hin) as (_ & _ & ?).
  - intros [c ->] Hsz. unfold drawn.
    rewrite calculateConnectors_mounted by done. apply newConnectors_edges.
Qed.

Lemma C7_connectors_total_and_defensive_witness :
  (λ conn, (sourceId conn, targetId conn))
    <$> TaskDetailModal.connectors
          (TaskDetailModal.calculateConnectors (Some container0)
             (mkState nodesWithDangling))
  = [("A", "B")].
Proof.
  refine (eq_trans
            (proj2 (proj2 (C7_connectors_total_and_defensive (Some container0)
                             (mkState nodesWithDangling))) _ _) _).
  - by eexists.
  - vm_compute. discriminate.
  - vm_compute. reflexivity.
Defined.

(** C10: a sub-step without a position is treated as lying at (0, 0): a
    connector leaving it starts at (0 + 200, 0 + 60), a connector reaching
    it ends at (0, 0 + 60), and its card is drawn with [left = 0] and
    [top = 0]. *)
Theorem C10_missing_position_is_origin
    (c : Container) (st : TaskDetailModal.ModalState) :
  size (TaskDetailModal.subStepCardRefs st) ≠ 0%nat →
  let drawn :=
    TaskDetailModal.connectors
      (TaskDetailModal.calculateConnectors (Some c) st) in
  (∀ source target tid,
     source ∈ TaskDetailModal.nodes st →
     tid ∈ orEmpty (nextSubStepIds source) →
     find_id tid (TaskDetailModal.nodes st) = Some target →
     position source = None →
     ∃ conn, conn ∈ drawn
       ∧ sourceId conn = id source ∧ targetId conn = tid
       ∧ conn_from conn = {| x := 0 + 200; y := 0 + 60 |}
       ∧ (position target = None → conn_to conn = {| x := 0; y := 0 + 60 |}))
  ∧ (∀ source target tid,
       source ∈ TaskDetailModal.nodes st →
       tid ∈ orEmpty (nextSubStepIds source) →
       find_id tid (TaskDetailModal.nodes st) = Some target →
       position target = None →
       ∃ conn, conn ∈ drawn
         ∧ sourceId conn = id source ∧ targetId conn = tid
         ∧ conn_to conn = {| x := 0; y := 0 + 60 |})
  ∧ (∀ subStep, position subStep = None →
       cardStyle subStep = {| style_left := 0; style_top := 0 |}).
Proof.
  intros Hsz drawn. unfold drawn.
  rewrite calculateConnectors_mounted by done. split_and!.
  - intros source target tid Hsrc Htid Hfind Hpos. eexists. split.
    { apply newConnectors_spec. exists source, tid, target. done. }
    cbn [sourceId targetId conn_from conn_to]. split_and!; [done..| |].
    + unfold sourcePosOf. by rewrite Hpos.
    + by intros ->.
  - intros source target tid Hsrc Htid Hfind Hpos. eexists. split.
    { apply newConnectors_spec. exists source, tid, target. done. }
    cbn [sourceId targetId conn_from conn_to]. split_and!; [done..|].
    by rewrite Hpos.
  - intros subStep Hpos. unfold cardStyle. by rewrite Hpos.
Qed.

Lemma C10_missing_position_is_origin_witness :
  (∃ conn,
     conn ∈ TaskDetailModal.connectors
              (TaskDetailModal.calculateConnectors (Some container0)
                 (mkState unplacedNodes))
     ∧ sourceId conn = "A" ∧ targetId conn = "B"
     ∧ conn_from conn = {| x := 200; y := 60 |}
     ∧ (position (mkSubStep "B" None None) = None →
        conn_to conn = {| x := 0; y := 60 |}))
  ∧ cardStyle (mkSubStep "A" None (Some ["B"]))
    = {| style_left := 0; style_top := 0 |}.
Proof.
  assert (size (TaskDetailModal.subStepCardRefs (mkState unplacedNodes)) ≠ 0%nat)
    as Hsz by (vm_compute; discriminate).
  destruct (C10_missing_position_is_origin container0 (mkState unplacedNodes) Hsz)
    as (Hfrom & _ & Hcard).
  split.
  - apply (Hfrom (mkSubStep "A" None (Some ["B"])) (mkSubStep "B" None None) "B").
    + vm_compute. left.
    + vm_compute. left.
    + reflexivity.
    + reflexivity.
  - apply Hcard. reflexivity.
Defined.

(** ** Graph mutations *)

Lemma with_nextSubStepIds_same (ss : SubStep) :
  with_nextSubStepIds (nextSubStepIds ss) ss = ss.
Proof. by destruct ss. Qed.

Lemma filter_absent (i : string) (l : list string) :
  i ∉ l → filter (λ j, j ≠ i) l = l.
Proof.
  induction l as [|j l IH]; [done|].
  rewrite not_elem_of_cons. intros [Hne Hl].
  rewrite filter_cons_True by done. by rewrite IH.
Qed.

Lemma filter_absent_option (i : string) (o : option (list string)) :
  i ∉ orEmpty o → filter (λ j, j ≠ i) <$> o = o.
Proof. destruct o as [l|]; [|done]. simpl. intros H. by rewrite filter_absent. Qed.

Lemma handleRemoveSubStep_nodes subStepId st :
  TaskDetailModal.nodes (TaskDetailModal.handleRemoveSubStep true true subStepId st)
  = (λ ss, with_nextSubStepIds
             (filter (λ i, i ≠ subStepId) <$> nextSubStepIds ss) ss)
      <$> filter (λ ss, id ss ≠ subStepId) (TaskDetailModal.nodes st).
Proof.
  unfold TaskDetailModal.handleRemoveSubStep. simpl.
  by destruct (bool_decide _).
Qed.

(** C1: after the removal no node carries the removed id and no remaining
    node lists it in [nextSubStepIds]; the remaining nodes are the other
    nodes in their order, each with the removed id filtered out of its
    [nextSubStepIds] and every other field as before (a node that did not
    reference the removed one is the same node); for A -> B -> C, removing
    B leaves A with no successor and C unchanged, and nothing references
    C. *)
Theorem C1_removeNode_cascades
    (subStepId : string) (st : TaskDetailModal.ModalState) :
  let remaining :=
    TaskDetailModal.nodes
      (TaskDetailModal.handleRemoveSubStep true true subStepId st) in
  (subStepId ∉ id <$> remaining)
  ∧ (∀ ss, ss ∈ remaining → subStepId ∉ orEmpty (nextSubStepIds ss))
  ∧ Forall2
      (λ ss ss',
         with_nextSubStepIds None ss' = with_nextSubStepIds None ss
         ∧ nextSubStepIds ss'
           = filter (λ i, i ≠ subStepId) <$> nextSubStepIds ss
         ∧ (subStepId ∉ orEmpty (nextSubStepIds ss) → ss' = ss))
      (filter (λ ss, id ss ≠ subStepId) (TaskDetailModal.nodes st))
      remaining
  ∧ (∀ a b c,
       TaskDetailModal.nodes st = [a; b; c] →
       subStepId = id b →
       id a ≠ id b → id c ≠ id b →
       nextSubStepIds a = Some [id b] →
       nextSubStepIds b = Some [id c] →
       orEmpty (nextSubStepIds c) = [] →
       remaining = [with_nextSubStepIds (Some []) a; c]
       ∧ (∀ ss, ss ∈ remaining → id c ∉ orEmpty (nextSubStepIds ss))).
Proof.
  intros remaining. unfold remaining. rewrite handleRemoveSubStep_nodes.
  split_and!.
  - rewrite list_elem_of_fmap. intros (ss' & Hid & Hin).
    apply list_elem_of_fmap in Hin as (ss & -> & Hin).
    apply list_elem_of_filter in Hin as [Hne _]. by apply Hne.
  - intros ss' (ss & -> & Hin)%list_elem_of_fmap. simpl.
    destruct (nextSubStepIds ss) as [ids|]; simpl; [|apply not_elem_of_nil].
    rewrite list_elem_of_filter. by intros [? _].
  - apply Forall2_fmap_r, Forall_Forall2_diag, Forall_forall.
    intros ss _. split_and!; [done..|].
    intros Habs. rewrite filter_absent_option by done.
    apply with_nextSubStepIds_same.
  - intros a b c Hnodes -> Hab Hcb Hna Hnb Hnc. rewrite Hnodes.
    rewrite filter_cons_True by done.
    rewrite filter_cons_False by (by intros H; apply H).
    rewrite filter_cons_True by done. rewrite filter_nil.
    assert (filter (λ i, i ≠ id b) <$> nextSubStepIds c = nextSubStepIds c)
      as Hc.
    { apply filter_absent_option. rewrite Hnc. apply not_elem_of_nil. }
    cbn [fmap list_fmap]. rewrite Hc, with_nextSubStepIds_same, Hna.
    cbn [fmap option_fmap option_map].
    rewrite filter_cons_False by (by intros H; apply H). rewrite filter_nil.
    split; [done|].
    intros ss [->|[->|[]%elem_of_nil]%elem_of_cons]%elem_of_cons.
    + apply not_elem_of_nil.
    + rewrite Hnc. apply not_elem_of_nil.
Qed.

Lemma C1_removeNode_cascades_witness :
  TaskDetailModal.nodes
    (TaskDetailModal.handleRemoveSubStep true true "B" (mkState chainABC))
  = [mkSubStep "A" (Some {| x := 50; y := 50 |}) (Some []);
     mkSubStep "C" (Some {| x := 490; y := 50 |}) None].
Proof.
  refine (proj1 (proj2 (proj2 (proj2
            (C1_removeNode_cascades "B" (mkState chainABC)))) _ _ _
            eq_refl eq_refl _ _ eq_refl eq_refl eq_refl));
    discriminate.
Defined.

(** *** Connecting two cards *)

Lemma handleEndConnection_nodes canEdit target st :
  TaskDetailModal.nodes (TaskDetailModal.handleEndConnection canEdit target st)
  = match TaskDetailModal.connectingState st with
    | Some cs =>
        if bool_decide (TaskDetailModal.fromId cs = target) || negb canEdit
        then TaskDetailModal.nodes st
        else addNext (TaskDetailModal.fromId cs) target
               <$> TaskDetailModal.nodes st
    | None => TaskDetailModal.nodes st
    end.
Proof.
  unfold TaskDetailModal.handleEndConnection.
  destruct (TaskDetailModal.connectingState st) as [cs|]; [|done].
  by destruct (_ || _).
Qed.

Lemma connect_nodes canvas down source target st :
  TaskDetailModal.nodes (connect canvas down source target st)
  = if decide (source = target) then TaskDetailModal.nodes st
    else addNext source target <$> TaskDetailModal.nodes st.
Proof.
  unfold connect. rewrite handleEndConnection_nodes. simpl.
  case_decide as Heq.
  - by rewrite bool_decide_eq_true_2.
  - by rewrite bool_decide_eq_false_2.
Qed.

Lemma addNext_twice source target ss :
  addNext source target (addNext source target ss) = addNext source target ss.
Proof.
  unfold addNext. destruct (decide (id ss = source)) as [Hid|Hid].
  - rewrite decide_True by done. unfold with_nextSubStepIds; simpl.
    by rewrite Array_from_Set_add_twice.
  - by rewrite decide_False.
Qed.

Lemma addNext_absent source target (l : list SubStep) :
  source ∉ id <$> l → addNext source target <$> l = l.
Proof.
  intros Hout. rewrite <- (list_fmap_id l) at 2.
  apply list_fmap_ext. intros i ss Hl. unfold addNext.
  rewrite decide_False; [done|]. intros Hid. apply Hout.
  apply list_elem_of_fmap. exists ss. split; [done|].
  by eapply list_elem_of_lookup_2.
Qed.

(** C4, as stated, fails: the target "Z" is not in the node set, yet the
    gesture changes the node set. *)
Lemma C4_absent_target_changes_nodes :
  let st := mkState [mkSubStep "A" (Some origin) None] in
  ("Z" ∉ id <$> TaskDetailModal.nodes st)
  ∧ TaskDetailModal.nodes
      (connect container0 {| clientX := 200; clientY := 60 |} "A" "Z" st)
    ≠ TaskDetailModal.nodes st.
Proof.
  split.
  - apply (bool_decide_unpack _). vm_compute. exact I.
  - vm_compute. discriminate.
Qed.

(** C4 (amended): the gesture leaves the node set unchanged when source
    and target are the same card or when no node carries the source id;
    otherwise, whether or not the target id is present, every node with
    the source id gets [nextSubStepIds] replaced by a duplicate-free list
    holding its former entries and the target, all else unchanged; doing
    the same gesture again changes nothing more, and so does a gesture
    towards a target already listed in a duplicate-free list. *)
Theorem C4_connect
    (canvas : Container) (down : PointerEvent) (source target : string)
    (st : TaskDetailModal.ModalState) :
  let connected :=
    TaskDetailModal.nodes (connect canvas down source target st) in
  (source = target → connected = TaskDetailModal.nodes st)
  ∧ ((source ∉ id <$> TaskDetailModal.nodes st) →
     connected = TaskDetailModal.nodes st)
  ∧ (source ≠ target →
     Forall2
       (λ ss ss',
          if decide (id ss = source)
          then with_nextSubStepIds None ss' = with_nextSubStepIds None ss
               ∧ ∃ ids', nextSubStepIds ss' = Some ids'
                  ∧ NoDup ids' ∧ target ∈ ids'
                  ∧ ∀ u, u ∈ ids' ↔
                         u ∈ orEmpty (nextSubStepIds ss) ∨ u = target
          else ss' = ss)
       (TaskDetailModal.nodes st) connected)
  ∧ (∀ down', TaskDetailModal.nodes
                (connect canvas down' source target
                   (connect canvas down source target st))
              = connected)
  ∧ ((∀ ss, ss ∈ TaskDetailModal.nodes st → id ss = source →
        ∃ ids, nextSubStepIds ss = Some ids ∧ NoDup ids ∧ target ∈ ids) →
     connected = TaskDetailModal.nodes st).
Proof.
  intros connected. unfold connected. rewrite connect_nodes. split_and!.
  - intros Heq. by rewrite decide_True.
  - intros Hout. case_decide; [done|]. by apply addNext_absent.
  - intros Hne. rewrite decide_False by done.
    apply Forall2_fmap_r, Forall_Forall2_diag, Forall_forall.
    intros ss _. unfold compose, addNext. cbn beta.
    destruct (decide (id ss = source)) as [Hid|Hid]; [|done].
    split; [done|]. eexists. split; [reflexivity|]. split_and!.
    + apply Array_from_Set_NoDup.
    + rewrite Array_from_Set_elem_of, elem_of_app, list_elem_of_singleton.
      by right.
    + intros u.
      by rewrite Array_from_Set_elem_of, elem_of_app, list_elem_of_singleton.
  - intros down'. rewrite connect_nodes, connect_nodes.
    case_decide; [done|]. rewrite <- list_fmap_compose.
    apply list_fmap_ext. intros i ss _. apply addNext_twice.
  - intros Hlisted. case_decide; [done|].
    rewrite <- (list_fmap_id (TaskDetailModal.nodes st)) at 2.
    apply list_fmap_ext. intros i ss Hl. unfold addNext.
    case_decide as Hid; [|done].
    destruct (Hlisted ss) as (ids & Hids & Hnd & Hin);
      [by eapply list_elem_of_lookup_2|done|].
    rewrite Hids. simpl. rewrite Array_from_Set_present by done.
    rewrite <- Hids. apply with_nextSubStepIds_same.
Qed.

Lemma C4_connect_witness :
  TaskDetailModal.nodes
    (connect container0 {| clientX := 200; clientY := 60 |} "B" "B"
       (mkState nodeA_to_B))
  = nodeA_to_B
  ∧ TaskDetailModal.nodes
      (connect container0 {| clientX := 200; clientY := 60 |} "A" "B"
         (mkState nodeA_to_B))
    = nodeA_to_B.
Proof.
  split.
  - exact (proj1 (C4_connect container0 {| clientX := 200; clientY := 60 |}
                    "B" "B" (mkState nodeA_to_B)) eq_refl).
  - apply (proj2 (proj2 (proj2 (proj2
             (C4_connect container0 {| clientX := 200; clientY := 60 |}
                "A" "B" (mkState nodeA_to_B)))))).
    intros ss Hin Hid. exists ["B"].
    apply elem_of_cons in Hin as [->|Hin].
    + split_and!; [reflexivity|apply NoDup_singleton|left].
    + apply list_elem_of_singleton in Hin as ->. discriminate Hid.
Defined.

(** *** Referential integrity *)

Section Integrity.
Implicit Types (l : list SubStep) (ss : SubStep).

Lemma referentialIntegrity_alt l :
  referentialIntegrity l ↔
  ∀ ss i, ss ∈ l → i ∈ orEmpty (nextSubStepIds ss) → i ∈ id <$> l.
Proof.
  unfold referentialIntegrity. rewrite Forall_forall.
  setoid_rewrite Forall_forall. naive_solver.
Qed.

Lemma keepsEdges_refl allowed ss : keepsEdges allowed ss ss.
Proof. split; [done|]. intros i Hi. by left. Qed.

Lemma keepsEdges_ids allowed l l' :
  Forall2 (keepsEdges allowed) l l' → id <$> l' = id <$> l.
Proof.
  induction 1 as [|ss ss' l l' [Hid _] _ IH]; [done|].
  by rewrite !fmap_cons, Hid, IH.
Qed.

Lemma referentialIntegrity_keepsEdges l l' :
  referentialIntegrity l →
  Forall2 (keepsEdges (id <$> l)) l l' →
  referentialIntegrity l'.
Proof.
  rewrite !referentialIntegrity_alt. intros HRI H2 ss' i Hin Hi.
  rewrite (keepsEdges_ids _ _ _ H2).
  apply list_elem_of_lookup_1 in Hin as [j Hj].
  destruct (Forall2_lookup_r _ _ _ _ _ H2 Hj) as (ss & Hl & _ & Hedges).
  destruct (Hedges i Hi) as [Hold|Hallowed]; [|done].
  eapply HRI; [|done]. by eapply list_elem_of_lookup_2.
Qed.

(** A sub-step-wise change that keeps ids and adds no edge keeps the
    invariant. *)
Lemma referentialIntegrity_fmap l (f : SubStep → SubStep) :
  (∀ ss, keepsEdges (id <$> l) ss (f ss)) →
  referentialIntegrity l → referentialIntegrity (f <$> l).
Proof.
  intros Hf HRI. eapply referentialIntegrity_keepsEdges; [done|].
  apply Forall2_fmap_r, Forall_Forall2_diag, Forall_forall.
  intros ss _. apply Hf.
Qed.

(** Appending sub-steps without outgoing edges keeps the invariant. *)
Lemma referentialIntegrity_app l news :
  referentialIntegrity l →
  Forall (λ n, nextSubStepIds n = None) news →
  referentialIntegrity (l ++ news).
Proof.
  rewrite !referentialIntegrity_alt, Forall_forall.
  intros HRI Hnew ss i Hin Hi. rewrite fmap_app, elem_of_app.
  apply elem_of_app in Hin as [Hin|Hin].
  - left. by eapply HRI.
  - rewrite (Hnew ss Hin) in Hi. by apply elem_of_nil in Hi.
Qed.

Lemma referentialIntegrity_remove l subStepId :
  referentialIntegrity l →
  referentialIntegrity
    ((λ ss, with_nextSubStepIds
              (filter (λ i, i ≠ subStepId) <$> nextSubStepIds ss) ss)
       <$> filter (λ ss, id ss ≠ subStepId) l).
Proof.
  rewrite !referentialIntegrity_alt. intros HRI ss' i Hin Hi.
  apply list_elem_of_fmap in Hin as (ss & -> & Hin).
  apply list_elem_of_filter in Hin as [Hss Hin]. simpl in Hi.
  assert (i ≠ subStepId ∧ i ∈ orEmpty (nextSubStepIds ss)) as [Hne Hold].
  { destruct (nextSubStepIds ss) as [ids|]; simpl in Hi.
    - by apply list_elem_of_filter in Hi.
    - by apply elem_of_nil in Hi. }
  apply (HRI ss i Hin), list_elem_of_fmap in Hold as (target & -> & Htarget).
  rewrite <- list_fmap_compose. apply list_elem_of_fmap.
  exists target. split; [done|]. by apply list_elem_of_filter.
Qed.

End Integrity.

(** *** Merging confirmed proposals *)

Section Merge.
Import TaskDetailModal.
Context {G : Type} `{!UniqueIdGen G}.
Implicit Types (l : list SubStep) (g : G).

(** The first loop leaves the existing sub-steps in place and appends one
    sub-step per proposal, in order: text and notes from the proposal, no
    action items, no outgoing edge, on the row [y = 50]; the [j]-th one is
    [2 * j] slots to the right of the first free slot. *)
Lemma pushProposals_spec (proposals : list Proposal) :
  ∀ index l g,
    ∃ news,
      (pushProposals proposals index l g).1 = l ++ news
      ∧ length news = length proposals
      ∧ ∀ j proposal, proposals !! j = Some proposal →
          ∃ n, news !! j = Some n
            ∧ text n = title proposal
            ∧ notes n = Some (description proposal)
            ∧ actionItems n = Some []
            ∧ nextSubStepIds n = None
            ∧ position n
              = Some {| x := 50 + (Z.of_nat (length l) + Z.of_nat index
                                   + 2 * Z.of_nat j) * 220;
                        y := 50 |}.
Proof.
  induction proposals as [|proposal rest IH]; intros index l g.
  - exists []. simpl. rewrite app_nil_r. split_and!; [done..|].
    intros j p Hj. by rewrite lookup_nil in Hj.
  - simpl. destruct (generateUniqueId "substep" g) as [newId g'].
    match goal with
    | |- context [pushProposals rest (S index) (l ++ [?n]) g'] =>
        set (newSubStep := n)
    end.
    destruct (IH (S index) (l ++ [newSubStep]) g')
      as (news & Heq & Hlen & Hnews).
    exists (newSubStep :: news). split_and!.
    + by rewrite Heq, <- (assoc_L (++)).
    + simpl. by rewrite Hlen.
    + intros [|j] p Hj; simpl in Hj.
      * injection Hj as <-. exists newSubStep. split_and!; [done..|].
        simpl. do 2 f_equal. lia.
      * destruct (Hnews j p Hj) as (n & Hn & ? & ? & ? & ? & Hpos).
        exists n. split_and!; [done..|]. rewrite Hpos.
        rewrite length_app. simpl. do 2 f_equal. lia.
Qed.

Lemma alter_actionItems_ids l i (f : SubStep → option (list ActionItem)) :
  id <$> alter (λ ss, with_actionItems (f ss) ss) i l = id <$> l.
Proof.
  apply list_eq. intros j. rewrite !list_lookup_fmap.
  destruct (decide (i = j)) as [->|Hne].
  - rewrite list_lookup_alter_eq. by destruct (l !! j).
  - by rewrite list_lookup_alter_ne.
Qed.

(** The second loop changes nothing but [actionItems], and only by
    appending. *)
Lemma growsActionItems_refl ss : growsActionItems ss ss.
Proof. split; [done|]. exists []. by rewrite app_nil_r. Qed.

Lemma growsActionItems_trans ss mid ss' :
  growsActionItems ss mid → growsActionItems mid ss' →
  growsActionItems ss ss'.
Proof.
  intros [Hmid [added1 Hadd1]] [Hss' [added2 Hadd2]].
  split; [congruence|]. exists (added1 ++ added2).
  by rewrite Hadd2, Hadd1, (assoc_L (++)).
Qed.

Lemma pushActionItems_spec (items : list ActionItemProposal) :
  ∀ l g, Forall2 growsActionItems l (pushActionItems items l g).1.
Proof.
  induction items as [|item rest IH]; intros l g; simpl.
  - apply Forall_Forall2_diag, Forall_forall. intros ss _.
    apply growsActionItems_refl.
  - destruct (findIndex_id (targetSubStepId item) l) as [targetIndex|];
      [|apply IH].
    destruct (generateUniqueId "action" g) as [newId g'].
    eapply (Forall2_trans growsActionItems growsActionItems growsActionItems);
      [apply growsActionItems_trans| |apply IH].
    apply Forall2_alter_r.
    + apply Forall_Forall2_diag, Forall_forall. intros ss _.
      apply growsActionItems_refl.
    + intros ss mid _ _ Hmid. eapply growsActionItems_trans; [exact Hmid|].
      split; [done|]. simpl. eauto.
Qed.

Lemma pushActionItems_ids (items : list ActionItemProposal) l g :
  id <$> (pushActionItems items l g).1 = id <$> l.
Proof.
  pose proof (pushActionItems_spec items l g) as H.
  induction H as [|ss ss' ? ? [Heq _] _ IH]; [done|].
  rewrite !fmap_cons, IH. f_equal.
  by apply (f_equal id) in Heq.
Qed.

(** Action-item proposals whose target does not resolve are skipped: the
    loop behaves as if they had not been passed, generator included. *)
Lemma pushActionItems_unresolved (items : list ActionItemProposal) :
  ∀ l g,
    pushActionItems items l g
    = pushActionItems
        (filter (λ item, targetSubStepId item ∈ id <$> l) items) l g.
Proof.
  induction items as [|item rest IH]; intros l g; [done|].
  rewrite filter_cons. simpl.
  destruct (findIndex_id (targetSubStepId item) l) as [targetIndex|] eqn:Hfind.
  - rewrite decide_True.
    2:{ apply findIndex_id_Some in Hfind as (ss & Hl & <-).
        apply list_elem_of_fmap. exists ss. split; [done|].
        by eapply list_elem_of_lookup_2. }
    simpl. rewrite Hfind.
    destruct (generateUniqueId "action" g) as [newId g'].
    rewrite IH. by rewrite alter_actionItems_ids.
  - rewrite decide_False by (by apply findIndex_id_None). apply IH.
Qed.

Lemma handleConfirmProposals_nodes additions st g :
  nodes (handleConfirmProposals additions st g).1
  = (pushActionItems (newActionItems additions)
       (pushProposals (newSubSteps additions) 0 (nodes st) g).1
       (pushProposals (newSubSteps additions) 0 (nodes st) g).2).1.
Proof.
  unfold handleConfirmProposals.
  destruct (pushProposals _ _ _ _) as [appended g1]. simpl.
  by destruct (pushActionItems _ _ _) as [updated g2].
Qed.

End Merge.

Section Preservation.
Import TaskDetailModal.
Implicit Types (l : list SubStep) (st : ModalState).

Lemma growsActionItems_keepsEdges allowed ss ss' :
  growsActionItems ss ss' → keepsEdges allowed ss ss'.
Proof.
  intros [Heq _]. split.
  - by apply (f_equal id) in Heq.
  - apply (f_equal nextSubStepIds) in Heq. simpl in Heq.
    rewrite Heq. by left.
Qed.

Lemma referentialIntegrity_imap l (f : nat → SubStep → SubStep) :
  (∀ i ss, keepsEdges (id <$> l) ss (f i ss)) →
  referentialIntegrity l → referentialIntegrity (imap f l).
Proof.
  intros Hf HRI. eapply referentialIntegrity_keepsEdges; [done|].
  apply Forall2_same_length_lookup_2; [by rewrite length_imap|].
  intros i ss ss' Hl. rewrite list_lookup_imap, Hl. intros [= <-]. apply Hf.
Qed.

Lemma with_position_keepsEdges allowed p ss :
  keepsEdges allowed ss (with_position p ss).
Proof. split; [done|]. intros i Hi. by left. Qed.

Lemma preserved_add {G} `{!UniqueIdGen G} canEdit st (g : G) :
  referentialIntegrity (nodes st) →
  referentialIntegrity (nodes (handleAddSubStep canEdit st g).1).
Proof.
  intros HRI. unfold handleAddSubStep. destruct canEdit; [|done]. simpl.
  destruct (generateUniqueId "substep" g) as [newId g']. simpl.
  apply referentialIntegrity_app; [done|]. by repeat constructor.
Qed.

Lemma preserved_remove canEdit confirmed subStepId st :
  referentialIntegrity (nodes st) →
  referentialIntegrity
    (nodes (handleRemoveSubStep canEdit confirmed subStepId st)).
Proof.
  intros HRI. destruct canEdit, confirmed; try done.
  rewrite handleRemoveSubStep_nodes.
  by apply referentialIntegrity_remove.
Qed.

Lemma preserved_connect canEdit target st :
  referentialIntegrity (nodes st) →
  target ∈ id <$> nodes st →
  referentialIntegrity (nodes (handleEndConnection canEdit target st)).
Proof.
  intros HRI Htarget. rewrite handleEndConnection_nodes.
  destruct (connectingState st) as [cs|]; [|done].
  destruct (_ || _); [done|].
  apply referentialIntegrity_fmap; [|done].
  intros ss. unfold addNext. case_decide; [|apply keepsEdges_refl].
  split; [done|]. intros i. simpl.
  rewrite Array_from_Set_elem_of, elem_of_app, list_elem_of_singleton.
  intros [?| ->]; [by left | by right].
Qed.

Lemma preserved_disconnect canEdit source target st :
  referentialIntegrity (nodes st) →
  referentialIntegrity
    (nodes (handleDeleteConnection canEdit source target st)).
Proof.
  intros HRI. unfold handleDeleteConnection. destruct canEdit; [|done].
  simpl. apply referentialIntegrity_fmap; [|done].
  intros ss. case_decide; [|apply keepsEdges_refl].
  split; [done|]. intros i. simpl. rewrite list_elem_of_filter.
  intros [_ ?]. by left.
Qed.

Lemma preserved_autoLayout fc st :
  referentialIntegrity (nodes st) →
  referentialIntegrity (nodes (handleAutoLayoutSubSteps fc st)).
Proof.
  intros HRI. rewrite handleAutoLayoutSubSteps_nodes.
  apply referentialIntegrity_imap; [|done].
  intros i ss. apply with_position_keepsEdges.
Qed.

Lemma preserved_move canEdit fc event st :
  referentialIntegrity (nodes st) →
  referentialIntegrity (nodes (handleSubStepDrop canEdit fc event st)).
Proof.
  intros HRI. unfold handleSubStepDrop.
  destruct (draggedSubStepIdRef st) as [dragged|]; [|done].
  destruct fc as [c|]; [|done]. destruct (_ || _); [done|]. simpl.
  apply referentialIntegrity_fmap; [|done].
  intros ss. case_decide; [apply with_position_keepsEdges|apply keepsEdges_refl].
Qed.

Lemma preserved_merge {G} `{!UniqueIdGen G} additions st (g : G) :
  referentialIntegrity (nodes st) →
  referentialIntegrity (nodes (handleConfirmProposals additions st g).1).
Proof.
  intros HRI. rewrite handleConfirmProposals_nodes.
  destruct (pushProposals_spec (newSubSteps additions) 0 (nodes st) g)
    as (news & Heq & Hlen & Hnews).
  rewrite Heq.
  eapply referentialIntegrity_keepsEdges.
  - apply referentialIntegrity_app; [exact HRI|].
    apply Forall_forall. intros n [j Hj]%list_elem_of_lookup_1.
    destruct (lookup_lt_is_Some_2 (newSubSteps additions) j) as [p Hp].
    { rewrite <- Hlen. by eapply lookup_lt_Some. }
    destruct (Hnews j p Hp) as (n' & Hn' & _ & _ & _ & Hnext & _).
    congruence.
  - eapply Forall2_impl; [apply pushActionItems_spec|].
    intros ss ss'. apply growsActionItems_keepsEdges.
Qed.

End Preservation.

(** C2, as stated, fails: a connect gesture that ends on an id outside the
    node set leaves an edge to a sub-step that does not exist. *)
Lemma C2_connect_to_absent_id_dangles :
  let st :=
    TaskDetailModal.handleStartConnection true (Some container0) "A"
      {| clientX := 200; clientY := 60 |}
      (mkState [mkSubStep "A" (Some origin) None]) in
  referentialIntegrity (TaskDetailModal.nodes st)
  ∧ ¬ referentialIntegrity
        (TaskDetailModal.nodes
           (TaskDetailModal.handleEndConnection true "ghost" st)).
Proof.
  split; apply (bool_decide_unpack _); vm_compute; exact I.
Qed.

(** C2 (amended): from a node set without dangling edges, adding a
    sub-step, removing one, deleting a connection, auto-layout, dropping a
    dragged card and merging proposals give a node set without dangling
    edges for all arguments; ending a connect gesture does so whenever the
    target id is the id of a node of the set. *)
Theorem C2_referential_integrity_preserved
    {G : Type} {gen : UniqueIdGen G} (st : TaskDetailModal.ModalState) :
  referentialIntegrity (TaskDetailModal.nodes st) →
  (∀ canEdit (g : G),
     referentialIntegrity
       (TaskDetailModal.nodes (TaskDetailModal.handleAddSubStep canEdit st g).1))
  ∧ (∀ canEdit confirmed subStepId,
       referentialIntegrity
         (TaskDetailModal.nodes
            (TaskDetailModal.handleRemoveSubStep canEdit confirmed subStepId st)))
  ∧ (∀ canEdit target,
       target ∈ id <$> TaskDetailModal.nodes st →
       referentialIntegrity
         (TaskDetailModal.nodes
            (TaskDetailModal.handleEndConnection canEdit target st)))
  ∧ (∀ canEdit source target,
       referentialIntegrity
         (TaskDetailModal.nodes
            (TaskDetailModal.handleDeleteConnection canEdit source target st)))
  ∧ (∀ fc,
       referentialIntegrity
         (TaskDetailModal.nodes (TaskDetailModal.handleAutoLayoutSubSteps fc st)))
  ∧ (∀ canEdit fc event,
       referentialIntegrity
         (TaskDetailModal.nodes
            (TaskDetailModal.handleSubStepDrop canEdit fc event st)))
  ∧ (∀ additions (g : G),
       referentialIntegrity
         (TaskDetailModal.nodes
            (TaskDetailModal.handleConfirmProposals additions st g).1)).
Proof.
  intros HRI. split_and!; intros.
  - by apply preserved_add.
  - by apply preserved_remove.
  - by apply preserved_connect.
  - by apply preserved_disconnect.
  - by apply preserved_autoLayout.
  - by apply preserved_move.
  - by apply preserved_merge.
Qed.

Lemma C2_referential_integrity_preserved_witness :
  referentialIntegrity
    (TaskDetailModal.nodes
       (TaskDetailModal.handleEndConnection true "C" connectingFromA))
  ∧ referentialIntegrity
      (TaskDetailModal.nodes
         (TaskDetailModal.handleRemoveSubStep true true "B" connectingFromA)).
Proof.
  assert (referentialIntegrity (TaskDetailModal.nodes connectingFromA)) as HRI.
  { apply (bool_decide_unpack _). vm_compute. exact I. }
  destruct (C2_referential_integrity_preserved (gen := supplyGen)
              connectingFromA HRI)
    as (_ & Hremove & Hconnect & _).
  split.
  - apply Hconnect. apply (bool_decide_unpack _). vm_compute. exact I.
  - apply Hremove.
Defined.

Section Merge000.
Context {G : Type} `{!UniqueIdGen G}.

Lemma mapGen_length {A B} (f : A → G → B * G) (l : list A) (g : G) :
  length (Part000.mapGen f l g).1 = length l.
Proof.
  revert g. induction l as [|a l IH]; intros g; [done|]. simpl.
  destruct (f a g) as [b g1]. specialize (IH g1).
  destruct (Part000.mapGen f l g1) as [bs g2]. simpl in *. by rewrite IH.
Qed.

(** Two callbacks that agree on the elements of the list give the same
    result. *)
Lemma mapGen_ext {A B} (f f' : A → G → B * G) (l : list A) (g : G) :
  (∀ a g, a ∈ l → f a g = f' a g) →
  Part000.mapGen f l g = Part000.mapGen f' l g.
Proof.
  revert g. induction l as [|a l IH]; intros g Hext; [done|]. simpl.
  rewrite <- (Hext a g) by left. destruct (f a g) as [b g1].
  rewrite IH; [done|]. intros a' g' Hin. apply Hext. by right.
Qed.

(** A property that the callback establishes between each element and its
    image holds between the list and its image. *)
Lemma mapGen_Forall2 {A B} (R : A → B → Prop) (f : A → G → B * G)
    (l : list A) (g : G) :
  (∀ a g, R a (f a g).1) → Forall2 R l (Part000.mapGen f l g).1.
Proof.
  intros Hf. revert g. induction l as [|a l IH]; intros g; simpl.
  - constructor.
  - specialize (Hf a g). destruct (f a g) as [b g1]. specialize (IH g1).
    destruct (Part000.mapGen f l g1) as [bs g2]. by constructor.
Qed.

End Merge000.

Section Merge000Facts.
Context {G : Type} `{!UniqueIdGen G}.
Implicit Types (st : Part000.ModalState) (g : G).

Lemma growsActionItems_ids l l' :
  Forall2 growsActionItems l l' → id <$> l' = id <$> l.
Proof.
  induction 1 as [|ss ss' ? ? [Heq _] _ IH]; [done|].
  rewrite !fmap_cons, IH. f_equal. by apply (f_equal id) in Heq.
Qed.

Lemma withNewActionItems_grows items subStep g :
  growsActionItems subStep (Part000.withNewActionItems items subStep g).1.
Proof.
  unfold Part000.withNewActionItems.
  destruct (filter _ items) as [|item rest]; [apply growsActionItems_refl|].
  destruct (Part000.mapGen _ _ g) as [added g']. simpl.
  split; [done|]. simpl. eauto.
Qed.

(** Proposals aimed at ids outside [ids] play no part for a sub-step whose
    id is in [ids]. *)
Lemma withNewActionItems_resolved (ids : list string) items subStep g :
  id subStep ∈ ids →
  Part000.withNewActionItems
    (filter (λ item, targetSubStepId item ∈ ids) items) subStep g
  = Part000.withNewActionItems items subStep g.
Proof.
  intros Hin. unfold Part000.withNewActionItems.
  rewrite list_filter_filter.
  rewrite (list_filter_iff _ (λ item, targetSubStepId item = id subStep));
    [done|].
  intros item. split; [by intros [? _]|]. intros Heq. by rewrite Heq.
Qed.

Lemma Part000_handleConfirmProposals_nodes additions st g :
  Part000.nodes (Part000.handleConfirmProposals additions st g).1
  = (Part000.mapGen (Part000.withNewActionItems (newActionItems additions))
       (Part000.nodes st
        ++ (Part000.mapGen (Part000.proposedSubStep st)
              (newSubSteps additions) g).1)
       (Part000.mapGen (Part000.proposedSubStep st)
          (newSubSteps additions) g).2).1.
Proof.
  unfold Part000.handleConfirmProposals.
  destruct (Part000.mapGen (Part000.proposedSubStep st) _ g) as [news g1].
  simpl. by destruct (Part000.mapGen _ _ g1) as [updated g2].
Qed.

Lemma Part000_handleConfirmProposals_grows additions st g :
  Forall2 growsActionItems
    (Part000.nodes st
     ++ (Part000.mapGen (Part000.proposedSubStep st)
           (newSubSteps additions) g).1)
    (Part000.nodes (Part000.handleConfirmProposals additions st g).1).
Proof.
  rewrite Part000_handleConfirmProposals_nodes.
  apply mapGen_Forall2. intros ss g'. apply withNewActionItems_grows.
Qed.

Lemma Part000_handleConfirmProposals_unresolved additions st g :
  Part000.handleConfirmProposals additions st g
  = Part000.handleConfirmProposals
      {| newSubSteps := newSubSteps additions;
         newActionItems :=
           filter (λ item,
                     targetSubStepId item
                     ∈ id <$> Part000.nodes
                                (Part000.handleConfirmProposals additions st g).1)
                  (newActionItems additions) |} st g.
Proof.
  rewrite (growsActionItems_ids _ _
             (Part000_handleConfirmProposals_grows additions st g)).
  unfold Part000.handleConfirmProposals. simpl.
  destruct (Part000.mapGen (Part000.proposedSubStep st) _ g) as [news g1].
  simpl.
  rewrite (mapGen_ext
             (Part000.withNewActionItems
                (filter (λ item, targetSubStepId item
                                 ∈ id <$> Part000.nodes st ++ news)
                        (newActionItems additions)))
             (Part000.withNewActionItems (newActionItems additions))); [done|].
  intros ss g' Hin. apply withNewActionItems_resolved.
  apply list_elem_of_fmap. eauto.
Qed.

(** The sub-steps built from the proposals: one per proposal, in order, all
    at the same position. *)
Lemma proposedSubSteps_spec st (proposals : list Proposal) g :
  Forall2
    (λ proposal n,
       text n = title proposal
       ∧ notes n = Some (description proposal)
       ∧ actionItems n = Some []
       ∧ nextSubStepIds n = None
       ∧ position n
         = Some {| x := 50 + Z.of_nat (length (Part000.nodes st)) * 250;
                   y := 50 |})
    proposals
    (Part000.mapGen (Part000.proposedSubStep st) proposals g).1.
Proof.
  apply mapGen_Forall2. intros proposal g'. unfold Part000.proposedSubStep.
  by destruct (generateUniqueId "substep" g').
Qed.

End Merge000Facts.

Lemma handleConfirmProposals_unresolved {G : Type} `{!UniqueIdGen G}
    additions (st : TaskDetailModal.ModalState) (g : G) :
  TaskDetailModal.handleConfirmProposals additions st g
  = TaskDetailModal.handleConfirmProposals
      {| newSubSteps := newSubSteps additions;
         newActionItems :=
           filter (λ item,
                     targetSubStepId item
                     ∈ id <$> TaskDetailModal.nodes
                                (TaskDetailModal.handleConfirmProposals
                                   additions st g).1)
                  (newActionItems additions) |} st g.
Proof.
  rewrite handleConfirmProposals_nodes, pushActionItems_ids.
  unfold TaskDetailModal.handleConfirmProposals. simpl.
  destruct (TaskDetailModal.pushProposals _ _ _ _) as [appended g1]. simpl.
  by rewrite <- pushActionItems_unresolved.
Qed.

(** C8, as stated, fails: a sub-step appended to three existing ones is
    placed at (710, 50) by [TaskDetailModal.tsx] and at (800, 50) by
    [part_000]; the grid rule of the layout puts index 3 at
    [(margin, margin + 150)], which is neither of them for any margin. *)
Lemma C8_appended_node_not_on_grid :
  let additions :=
    {| newSubSteps := [ {| title := "T"; description := "D" |} ];
       newActionItems := [] |} in
  (¬ ∃ margin : Z,
       position
         <$> TaskDetailModal.nodes
               (TaskDetailModal.handleConfirmProposals (gen := supplyGen)
                  additions (mkState chainABC) ["1"]).1 !! 3%nat
       = Some (Some (gridPosition margin 3)))
  ∧ (¬ ∃ margin : Z,
         position
           <$> Part000.nodes
                 (Part000.handleConfirmProposals (gen := supplyGen)
                    additions (mkState000 chainABC) ["1"]).1 !! 3%nat
         = Some (Some (gridPosition margin 3))).
Proof.
  intros additions.
  split; intros [margin Hgrid]; revert Hgrid;
    match goal with
    | |- ?placed = _ → _ =>
        let v := eval vm_compute in placed in
        replace placed with v by (vm_compute; reflexivity)
    end;
    unfold gridPosition, HORIZONTAL_SPACING, VERTICAL_SPACING;
    intros [= Hx Hy];
    change (Z.of_nat 3 `mod` 3)%Z with 0%Z in Hx;
    change (Z.of_nat 3 `div` 3)%Z with 1%Z in Hy; lia.
Qed.

(** C8 (amended): merging the single proposal [{title: "T", description:
    "D"}] into an empty set gives exactly one sub-step, with text "T",
    notes "D" and no action items, at (50, 50); action-item proposals whose
    target is not the id of a sub-step of the merged set are ignored; the
    existing sub-steps stay in place and change at most by gaining action
    items; the appended sub-steps follow in the order of the proposals,
    on the row [y = 50], the first one at [x = 50 + n * 220] for [n]
    existing sub-steps (in [part_000]: every one at [x = 50 + n * 250]). *)
Theorem C8_mergeProposals
    {G : Type} {gen : UniqueIdGen G}
    (st : TaskDetailModal.ModalState) (st0 : Part000.ModalState) (g : G) :
  (∀ T D,
     let single :=
       {| newSubSteps := [ {| title := T; description := D |} ];
          newActionItems := [] |} in
     (TaskDetailModal.nodes st = [] →
      ∃ ss,
        TaskDetailModal.nodes
          (TaskDetailModal.handleConfirmProposals single st g).1 = [ss]
        ∧ text ss = T ∧ notes ss = Some D ∧ actionItems ss = Some []
        ∧ position ss = Some {| x := 50; y := 50 |})
     ∧ (Part000.nodes st0 = [] →
        ∃ ss,
          Part000.nodes (Part000.handleConfirmProposals single st0 g).1 = [ss]
          ∧ text ss = T ∧ notes ss = Some D ∧ actionItems ss = Some []
          ∧ position ss = Some {| x := 50; y := 50 |}))
  ∧ (∀ additions,
       TaskDetailModal.handleConfirmProposals additions st g
       = TaskDetailModal.handleConfirmProposals
           {| newSubSteps := newSubSteps additions;
              newActionItems :=
                filter (λ item,
                          targetSubStepId item
                          ∈ id <$> TaskDetailModal.nodes
                                     (TaskDetailModal.handleConfirmProposals
                                        additions st g).1)
                       (newActionItems additions) |} st g)
  ∧ (∀ additions,
       Part000.handleConfirmProposals additions st0 g
       = Part000.handleConfirmProposals
           {| newSubSteps := newSubSteps additions;
              newActionItems :=
                filter (λ item,
                          targetSubStepId item
                          ∈ id <$> Part000.nodes
                                     (Part000.handleConfirmProposals
                                        additions st0 g).1)
                       (newActionItems additions) |} st0 g)
  ∧ (∀ additions,
       let merged :=
         TaskDetailModal.nodes
           (TaskDetailModal.handleConfirmProposals additions st g).1 in
       let n := length (TaskDetailModal.nodes st) in
       length merged = (n + length (newSubSteps additions))%nat
       ∧ (∀ i ss, TaskDetailModal.nodes st !! i = Some ss →
            ∃ ss', merged !! i = Some ss' ∧ growsActionItems ss ss')
       ∧ (∀ j proposal, newSubSteps additions !! j = Some proposal →
            ∃ new, merged !! (n + j)%nat = Some new
              ∧ text new = title proposal
              ∧ notes new = Some (description proposal)
              ∧ nextSubStepIds new = None
              ∧ y <$> position new = Some 50%Z
              ∧ (j = 0%nat →
                 position new
                 = Some {| x := 50 + Z.of_nat n * 220; y := 50 |})))
  ∧ (∀ additions,
       let merged :=
         Part000.nodes (Part000.handleConfirmProposals additions st0 g).1 in
       let n := length (Part000.nodes st0) in
       length merged = (n + length (newSubSteps additions))%nat
       ∧ (∀ i ss, Part000.nodes st0 !! i = Some ss →
            ∃ ss', merged !! i = Some ss' ∧ growsActionItems ss ss')
       ∧ (∀ j proposal, newSubSteps additions !! j = Some proposal →
            ∃ new, merged !! (n + j)%nat = Some new
              ∧ text new = title proposal
              ∧ notes new = Some (description proposal)
              ∧ nextSubStepIds new = None
              ∧ position new
                = Some {| x := 50 + Z.of_nat n * 250; y := 50 |})).
Proof.
  split_and!.
  - intros T D single. split.
    + intros Hempty. unfold TaskDetailModal.handleConfirmProposals.
      rewrite Hempty. simpl.
      destruct (generateUniqueId "substep" g) as [newId g']. simpl.
      eexists. split; [reflexivity|]. done.
    + intros Hempty. unfold Part000.handleConfirmProposals. simpl.
      unfold Part000.proposedSubStep at 1. rewrite Hempty.
      destruct (generateUniqueId "substep" g) as [newId g']. simpl.
      eexists. split; [reflexivity|]. done.
  - intros additions. apply handleConfirmProposals_unresolved.
  - intros additions. apply Part000_handleConfirmProposals_unresolved.
  - intros additions merged n. unfold merged, n.
    rewrite handleConfirmProposals_nodes.
    destruct (pushProposals_spec (newSubSteps additions) 0
                (TaskDetailModal.nodes st) g) as (news & Heq & Hlen & Hnews).
    pose proof (pushActionItems_spec (newActionItems additions)
                  (TaskDetailModal.pushProposals (newSubSteps additions) 0
                     (TaskDetailModal.nodes st) g).1
                  (TaskDetailModal.pushProposals (newSubSteps additions) 0
                     (TaskDetailModal.nodes st) g).2) as Hgrow.
    rewrite Heq in Hgrow |- *. split_and!.
    + by rewrite <- (Forall2_length _ _ _ Hgrow), length_app, Hlen.
    + intros i ss Hi. eapply Forall2_lookup_l; [exact Hgrow|].
      by apply lookup_app_l_Some.
    + intros j proposal Hj.
      destruct (Hnews j proposal Hj) as (new & Hnew & Ht & Hn & _ & Hnext & Hpos).
      destruct (Forall2_lookup_l _ _ _ (length (TaskDetailModal.nodes st) + j)
                  new Hgrow) as (new' & Hnew' & Heq' & _).
      { by rewrite lookup_app_r, Nat.add_sub' by lia. }
      exists new'. split; [done|].
      pose proof (f_equal text Heq') as Htext.
      pose proof (f_equal notes Heq') as Hnotes.
      pose proof (f_equal nextSubStepIds Heq') as Hnext'.
      pose proof (f_equal position Heq') as Hpos'.
      simpl in Htext, Hnotes, Hnext', Hpos'.
      rewrite Htext, Hnotes, Hnext', Hpos', Hpos.
      split_and!; [done..|]. intros ->. simpl. do 2 f_equal. lia.
  - intros additions merged n. unfold merged, n.
    pose proof (Part000_handleConfirmProposals_grows additions st0 g) as Hgrow.
    pose proof (proposedSubSteps_spec st0 (newSubSteps additions) g) as Hnews.
    split_and!.
    + rewrite <- (Forall2_length _ _ _ Hgrow), length_app.
      by rewrite <- (Forall2_length _ _ _ Hnews).
    + intros i ss Hi. eapply Forall2_lookup_l; [exact Hgrow|].
      by apply lookup_app_l_Some.
    + intros j proposal Hj.
      destruct (Forall2_lookup_l _ _ _ j proposal Hnews Hj)
        as (new & Hnew & Ht & Hn & _ & Hnext & Hpos).
      destruct (Forall2_lookup_l _ _ _ (length (Part000.nodes st0) + j)
                  new Hgrow) as (new' & Hnew' & Heq' & _).
      { by rewrite lookup_app_r, Nat.add_sub' by lia. }
      exists new'. split; [done|].
      pose proof (f_equal text Heq') as Htext.
      pose proof (f_equal notes Heq') as Hnotes.
      pose proof (f_equal nextSubStepIds Heq') as Hnext'.
      pose proof (f_equal position Heq') as Hpos'.
      simpl in Htext, Hnotes, Hnext', Hpos'.
      by rewrite Htext, Hnotes, Hnext', Hpos', Hpos.
Qed.

Lemma C8_mergeProposals_witness :
  ∃ ss,
    TaskDetailModal.nodes
      (TaskDetailModal.handleConfirmProposals (gen := supplyGen)
         {| newSubSteps := [ {| title := "T"; description := "D" |} ];
            newActionItems := [] |}
         (mkState []) ["1"]).1 = [ss]
    ∧ text ss = "T" ∧ notes ss = Some "D" ∧ actionItems ss = Some []
    ∧ position ss = Some {| x := 50; y := 50 |}.
Proof.
  exact (proj1 (proj1 (C8_mergeProposals (gen := supplyGen)
                         (mkState []) (mkState000 []) ["1"]) "T" "D")
           eq_refl).
Defined.

(** * Further properties of the two components *)

(** ** Changes that keep ids and only take edges away *)

Section Shrink.
Implicit Types (l : list SubStep) (ss : SubStep).

Lemma edgesShrink_refl ss : edgesShrink ss ss.
Proof. by split. Qed.


Lemma edgesShrink_fmap l (f : SubStep → SubStep) :
  (∀ ss, edgesShrink ss (f ss)) → Forall2 edgesShrink l (f <$> l).
Proof.
  intros Hf. apply Forall2_fmap_r, Forall_Forall2_diag, Forall_forall.
  intros ss _. apply Hf.
Qed.

Lemma edgesShrink_same_fields ss ss' :
  id ss' = id ss → nextSubStepIds ss' = nextSubStepIds ss →
  edgesShrink ss ss'.
Proof. intros Hid Hnext. split; [done|]. by rewrite Hnext. Qed.

Lemma growsActionItems_edgesShrink ss ss' :
  growsActionItems ss ss' → edgesShrink ss ss'.
Proof.
  intros [Heq _]. apply edgesShrink_same_fields.
  - by apply (f_equal id) in Heq.
  - by apply (f_equal nextSubStepIds) in Heq.
Qed.

Lemma dropNext_edgesShrink source target ss :
  edgesShrink ss (dropNext source target ss).
Proof.
  unfold dropNext. case_decide; [|apply edgesShrink_refl].
  split; [done|]. apply sublist_filter.
Qed.

Lemma referentialIntegrity_shrink l l' :
  Forall2 edgesShrink l l' → referentialIntegrity l → referentialIntegrity l'.
Proof.
  intros H2 HRI. eapply referentialIntegrity_keepsEdges; [done|].
  eapply Forall2_impl; [exact H2|]. intros ss ss' [Hid Hsub].
  split; [done|]. intros i Hi. left. by eapply sublist_subseteq.
Qed.

Lemma referentialIntegrity_addNext l source target :
  referentialIntegrity l → target ∈ id <$> l →
  referentialIntegrity (addNext source target <$> l).
Proof.
  intros HRI Htarget. apply referentialIntegrity_fmap; [|done].
  intros ss. unfold addNext. case_decide; [|apply keepsEdges_refl].
  split; [done|]. intros i. simpl.
  rewrite Array_from_Set_elem_of, elem_of_app, list_elem_of_singleton.
  intros [?| ->]; [by left | by right].
Qed.

Lemma noSelfLoops_shrink l l' :
  Forall2 edgesShrink l l' → noSelfLoops l → noSelfLoops l'.
Proof.
  unfold noSelfLoops. induction 1 as [|ss ss' ? ? [Hid Hsub] _ IH]; [done|].
  rewrite !Forall_cons. intros [Hss Hl]. split; [|by apply IH].
  rewrite Hid. intros Hin. apply Hss. by eapply sublist_subseteq.
Qed.

Lemma noSelfLoops_app l news :
  noSelfLoops l → Forall (λ n, nextSubStepIds n = None) news →
  noSelfLoops (l ++ news).
Proof.
  unfold noSelfLoops. intros Hl Hnews. apply Forall_app. split; [done|].
  eapply Forall_impl; [exact Hnews|]. intros n Hn. rewrite Hn.
  apply not_elem_of_nil.
Qed.

Lemma noSelfLoops_remove l subStepId :
  noSelfLoops l → noSelfLoops (removeFrom subStepId l).
Proof.
  unfold noSelfLoops, removeFrom. intros Hl. apply Forall_fmap.
  apply Forall_forall. intros ss [_ Hin]%list_elem_of_filter. simpl.
  rewrite Forall_forall in Hl. specialize (Hl ss Hin).
  destruct (nextSubStepIds ss) as [ids|]; simpl in *; [|done].
  rewrite list_elem_of_filter. by intros [_ ?].
Qed.

Lemma noSelfLoops_addNext l source target :
  noSelfLoops l → source ≠ target → noSelfLoops (addNext source target <$> l).
Proof.
  unfold noSelfLoops. intros Hl Hne. apply Forall_fmap.
  eapply Forall_impl; [exact Hl|]. intros ss Hss. simpl.
  unfold addNext. case_decide as Hid; [|done]. simpl.
  rewrite Array_from_Set_elem_of, elem_of_app, list_elem_of_singleton.
  intros [?|Heq]; [done|]. congruence.
Qed.

Lemma edgesDupFree_shrink l l' :
  Forall2 edgesShrink l l' → edgesDupFree l → edgesDupFree l'.
Proof.
  unfold edgesDupFree. induction 1 as [|ss ss' ? ? [Hid Hsub] _ IH]; [done|].
  rewrite !Forall_cons. intros [Hss Hl]. split; [|by apply IH].
  by eapply sublist_NoDup.
Qed.

Lemma edgesDupFree_app l news :
  edgesDupFree l → Forall (λ n, nextSubStepIds n = None) news →
  edgesDupFree (l ++ news).
Proof.
  unfold edgesDupFree. intros Hl Hnews. apply Forall_app. split; [done|].
  eapply Forall_impl; [exact Hnews|]. intros n Hn. rewrite Hn.
  apply NoDup_nil_2.
Qed.

Lemma edgesDupFree_remove l subStepId :
  edgesDupFree l → edgesDupFree (removeFrom subStepId l).
Proof.
  unfold edgesDupFree, removeFrom. intros Hl. apply Forall_fmap.
  apply Forall_forall. intros ss [_ Hin]%list_elem_of_filter. simpl.
  rewrite Forall_forall in Hl. specialize (Hl ss Hin).
  destruct (nextSubStepIds ss) as [ids|]; simpl in *; [|done].
  by apply NoDup_filter.
Qed.

Lemma edgesDupFree_addNext l source target :
  edgesDupFree l → edgesDupFree (addNext source target <$> l).
Proof.
  unfold edgesDupFree. intros Hl. apply Forall_fmap.
  eapply Forall_impl; [exact Hl|]. intros ss Hss. simpl.
  unfold addNext. case_decide; [|done]. apply Array_from_Set_NoDup.
Qed.

End Shrink.

(** ** What one event does to the sub-steps *)

Section EventShapes.
Import TaskDetailModal.
Context {G : Type} {gen : UniqueIdGen G}.
Implicit Types (st : ModalState) (g : G) (l : list SubStep).

Lemma nodesGrow_same l : nodesGrow l l.
Proof.
  exists []. split; [constructor|]. rewrite app_nil_r.
  apply Forall_Forall2_diag, Forall_forall. intros ss _.
  apply edgesShrink_refl.
Qed.

Lemma nodesGrow_fmap l (f : SubStep → SubStep) :
  (∀ ss, edgesShrink ss (f ss)) → nodesGrow l (f <$> l).
Proof.
  intros Hf. exists []. split; [constructor|]. rewrite app_nil_r.
  by apply edgesShrink_fmap.
Qed.


Lemma settle_nodes fc st : nodes (settle fc st) = nodes st.
Proof. unfold settle, calculateConnectors. by destruct (_ || _). Qed.




Lemma handleAddSubStep_grow canEdit st g :
  nodesGrow (nodes st) (nodes (handleAddSubStep canEdit st g).1).
Proof.
  unfold handleAddSubStep. destruct canEdit; [|apply nodesGrow_same]. simpl.
  destruct (generateUniqueId "substep" g) as [newId g'].
  cbn [fst nodes setSubSteps setExtendedDetails extendedDetails
       with_subSteps subSteps].
  match goal with
  | |- nodesGrow _ (_ ++ [?n]) => exists [n]
  end. split; [by repeat constructor|].
  apply Forall_Forall2_diag, Forall_forall. intros ss _.
  apply edgesShrink_refl.
Qed.

Lemma handleConfirmProposals_grow additions st g :
  nodesGrow (nodes st) (nodes (handleConfirmProposals additions st g).1).
Proof.
  rewrite handleConfirmProposals_nodes.
  destruct (pushProposals_spec (newSubSteps additions) 0 (nodes st) g)
    as (news & Heq & Hlen & Hnews).
  rewrite Heq. exists news. split.
  - apply Forall_forall. intros n [j Hj]%list_elem_of_lookup_1.
    destruct (lookup_lt_is_Some_2 (newSubSteps additions) j) as [p Hp].
    { rewrite <- Hlen. by eapply lookup_lt_Some. }
    destruct (Hnews j p Hp) as (n' & Hn' & _ & _ & _ & Hnext & _).
    congruence.
  - eapply Forall2_impl; [apply pushActionItems_spec|].
    intros ss ss'. apply growsActionItems_edgesShrink.
Qed.

Lemma handleSubStepDrop_grow canEdit fc e st :
  nodesGrow (nodes st) (nodes (handleSubStepDrop canEdit fc e st)).
Proof.
  unfold handleSubStepDrop.
  destruct (draggedSubStepIdRef st) as [dragged|]; [|apply nodesGrow_same].
  destruct fc as [c|]; [|apply nodesGrow_same].
  destruct (_ || _); [apply nodesGrow_same|]. simpl.
  apply nodesGrow_fmap. intros ss.
  case_decide; by apply edgesShrink_same_fields.
Qed.

Lemma handleEndConnection_step canEdit i subStep st :
  nodes st !! i = Some subStep →
  nodesStep (nodes st) (nodes (handleEndConnection canEdit (id subStep) st)).
Proof.
  intros Hi. rewrite handleEndConnection_nodes.
  destruct (connectingState st) as [cs|];
    [|apply nodesStep_grow, nodesGrow_same].
  destruct (bool_decide (fromId cs = id subStep)) eqn:Hsame;
    [apply nodesStep_grow, nodesGrow_same|].
  destruct canEdit; [|apply nodesStep_grow, nodesGrow_same]. simpl.
  apply nodesStep_connect.
  - by apply bool_decide_eq_false in Hsame.
  - apply list_elem_of_fmap. exists subStep. split; [done|].
    by eapply list_elem_of_lookup_2.
Qed.

Lemma handleRemoveSubStep_step canEdit confirmed subStepId st :
  nodesStep (nodes st)
    (nodes (handleRemoveSubStep canEdit confirmed subStepId st)).
Proof.
  destruct canEdit, confirmed; try apply nodesStep_grow, nodesGrow_same.
  rewrite handleRemoveSubStep_nodes. apply nodesStep_remove.
Qed.

Lemma handleDeleteConnection_nodes source target st :
  nodes (handleDeleteConnection true source target st)
  = dropNext source target <$> nodes st.
Proof. reflexivity. Qed.

Lemma handleDeleteConnection_grow canEdit source target st :
  nodesGrow (nodes st)
    (nodes (handleDeleteConnection canEdit source target st)).
Proof.
  destruct canEdit; [|apply nodesGrow_same].
  rewrite handleDeleteConnection_nodes.
  apply nodesGrow_fmap, dropNext_edgesShrink.
Qed.

Lemma handleUpdateSubStep_nodes subStepId updates st :
  nodes (handleUpdateSubStep true subStepId updates st)
  = (λ ss, if decide (id ss = subStepId) then updates ss else ss)
      <$> nodes st.
Proof. unfold handleUpdateSubStep. simpl. by destruct (bool_decide _). Qed.

Lemma handleUpdateSubStep_grow canEdit subStepId edit st :
  nodesGrow (nodes st)
    (nodes (handleUpdateSubStep canEdit subStepId (applySubStepEdit edit) st)).
Proof.
  destruct canEdit; [|apply nodesGrow_same].
  rewrite handleUpdateSubStep_nodes. apply nodesGrow_fmap. intros ss.
  case_decide; by apply edgesShrink_same_fields.
Qed.

Lemma handleAddActionItem_grow canEdit subStepId st g :
  nodesGrow (nodes st) (nodes (handleAddActionItem canEdit subStepId st g).1).
Proof.
  unfold handleAddActionItem. destruct canEdit; [|apply nodesGrow_same].
  simpl. destruct (generateUniqueId "action" g) as [newId g']. simpl.
  apply nodesGrow_fmap. intros ss.
  case_decide; by apply edgesShrink_same_fields.
Qed.

Lemma handleUpdateActionItem_grow canEdit subStepId actionItemId updates st :
  nodesGrow (nodes st)
    (nodes (handleUpdateActionItem canEdit subStepId actionItemId updates st)).
Proof.
  destruct canEdit; [|apply nodesGrow_same]. simpl.
  apply nodesGrow_fmap. intros ss.
  case_decide; by apply edgesShrink_same_fields.
Qed.

Lemma handleRemoveActionItem_grow canEdit confirmed subStepId actionItemId st :
  nodesGrow (nodes st)
    (nodes (handleRemoveActionItem canEdit confirmed subStepId actionItemId st)).
Proof.
  destruct canEdit, confirmed; try apply nodesGrow_same. simpl.
  apply nodesGrow_fmap. intros ss.
  case_decide; by apply edgesShrink_same_fields.
Qed.

(** Every event other than the delete button of a card and the mouse-up
    on a card makes the list of sub-steps grow. *)
Lemma onEvent_grow canEdit fc ev st g :
  (∀ i confirmed, ev ≠ CardRemoveClick i confirmed) →
  (∀ i, ev ≠ CardMouseUp i) →
  nodesGrow (nodes st) (nodes (onEvent canEdit fc ev (st, g)).1).
Proof.
  intros Hremove Hup. destruct ev; simpl.
  - destruct canEdit; [apply handleAddSubStep_grow|apply nodesGrow_same].
  - destruct canEdit; apply nodesGrow_same.
  - destruct (isProposalModalOpen st);
      [apply handleConfirmProposals_grow|apply nodesGrow_same].
  - apply nodesGrow_same.
  - destruct (nodes st !! i) as [subStep|]; [|apply nodesGrow_same]. simpl.
    unfold handleSubStepDragStart. destruct canEdit; [|apply nodesGrow_same].
    destruct fc; apply nodesGrow_same.
  - by destruct (Hup i).
  - destruct (nodes st !! i) as [subStep|]; apply nodesGrow_same.
  - destruct (nodes st !! i) as [subStep|]; [|apply nodesGrow_same].
    destruct canEdit; [|apply nodesGrow_same]. simpl.
    destruct fc; apply nodesGrow_same.
  - by destruct (Hremove i confirmed).
  - apply handleSubStepDrop_grow.
  - unfold handleMouseMove. destruct (connectingState st); [|apply nodesGrow_same].
    destruct fc; apply nodesGrow_same.
  - unfold handleMouseUp. destruct (connectingState st); apply nodesGrow_same.
  - destruct (connectors st !! j) as [conn|]; [|apply nodesGrow_same].
    destruct canEdit; [|apply nodesGrow_same]. simpl.
    apply handleDeleteConnection_grow.
  - destruct (selectedSubStep st) as [sel|]; [|apply nodesGrow_same]. simpl.
    apply handleUpdateSubStep_grow.
  - destruct (selectedSubStep st) as [sel|]; [|apply nodesGrow_same].
    destruct canEdit; [|apply nodesGrow_same].
    apply handleAddActionItem_grow.
  - destruct (selectedSubStep st) as [sel|]; [|apply nodesGrow_same].
    destruct (orEmpty (actionItems sel) !! k) as [actionItem|];
      [|apply nodesGrow_same].
    simpl. apply handleUpdateActionItem_grow.
  - destruct (selectedSubStep st) as [sel|]; [|apply nodesGrow_same].
    destruct (orEmpty (actionItems sel) !! k) as [actionItem|];
      [|apply nodesGrow_same].
    destruct canEdit; [|apply nodesGrow_same]. simpl.
    apply handleRemoveActionItem_grow.
Qed.

(** Whatever the event, the sub-steps change in one of the three ways. *)
Lemma onEvent_step canEdit fc ev st g :
  nodesStep (nodes st) (nodes (onEvent canEdit fc ev (st, g)).1).
Proof.
  destruct ev;
    try (apply nodesStep_grow, onEvent_grow; intros; discriminate).
  - simpl.
    destruct (nodes st !! i) as [subStep|] eqn:Hi;
      [|apply nodesStep_grow, nodesGrow_same].
    simpl. pose proof (handleEndConnection_step canEdit i subStep st Hi).
    by destruct (connectingState st).
  - simpl.
    destruct (nodes st !! i) as [subStep|];
      [|apply nodesStep_grow, nodesGrow_same].
    destruct canEdit; [|apply nodesStep_grow, nodesGrow_same]. simpl.
    apply handleRemoveSubStep_step.
Qed.

Lemma step_nodesStep canEdit fc s ev :
  nodesStep (nodes s.1) (nodes (step canEdit fc s ev).1).
Proof.
  destruct s as [st g]. unfold step.
  pose proof (onEvent_step canEdit fc ev st g) as H.
  destruct (onEvent canEdit fc ev (st, g)) as [st' g']. simpl in *.
  by rewrite settle_nodes.
Qed.

(** A property of the list of sub-steps that each of the three ways keeps
    holds after every session. *)
Lemma run_invariant (Inv : list SubStep → Prop) canEdit fc evs s :
  (∀ l l', nodesStep l l' → Inv l → Inv l') →
  Inv (nodes s.1) → Inv (nodes (run canEdit fc evs s).1).
Proof.
  intros Hstep. revert s. unfold run.
  induction evs as [|ev evs IH]; intros s Hs; [done|]. simpl.
  apply IH. eapply Hstep; [apply step_nodesStep|done].
Qed.

End EventShapes.

(** ** Sessions *)

(** X1: through the rendered canvas and panel a dangling edge cannot be
    made: if every stored edge points to a present sub-step before a
    session, the same holds after it, whatever the events. A connect
    gesture can only end on a rendered card, and every card is a
    sub-step. *)
Theorem X1_sessions_keep_referential_integrity
    {G : Type} {gen : UniqueIdGen G} (canEdit : bool)
    (flowContainerRef : option Container)
    (evs : list TaskDetailModal.UIEvent)
    (s : TaskDetailModal.ModalState * G) :
  referentialIntegrity (TaskDetailModal.nodes s.1) →
  referentialIntegrity
    (TaskDetailModal.nodes
       (TaskDetailModal.run canEdit flowContainerRef evs s).1).
Proof.
  apply run_invariant. intros l l' Hstep HRI.
  destruct Hstep as [l' (news & Hnews & H2)| |].
  - eapply referentialIntegrity_shrink; [exact H2|].
    by apply referentialIntegrity_app.
  - by apply referentialIntegrity_remove.
  - by apply referentialIntegrity_addNext.
Qed.

Lemma X1_sessions_keep_referential_integrity_witness :
  referentialIntegrity
    (TaskDetailModal.nodes
       (TaskDetailModal.run (gen := supplyGen) true (Some container0)
          sampleSession (mkState chainABC, ["1"; "2"])).1).
Proof.
  apply X1_sessions_keep_referential_integrity.
  apply (bool_decide_unpack _). vm_compute. exact I.
Defined.

(** X2: sessions keep the graph simple: if no sub-step lists its own id
    before, none does after, and if no sub-step lists an id twice before,
    none does after. *)
Theorem X2_sessions_keep_edges_simple
    {G : Type} {gen : UniqueIdGen G} (canEdit : bool)
    (flowContainerRef : option Container)
    (evs : list TaskDetailModal.UIEvent)
    (s : TaskDetailModal.ModalState * G) :
  (noSelfLoops (TaskDetailModal.nodes s.1) →
   noSelfLoops
     (TaskDetailModal.nodes
        (TaskDetailModal.run canEdit flowContainerRef evs s).1))
  ∧ (edgesDupFree (TaskDetailModal.nodes s.1) →
     edgesDupFree
       (TaskDetailModal.nodes
          (TaskDetailModal.run canEdit flowContainerRef evs s).1)).
Proof.
  split; apply run_invariant; intros l l' Hstep Hinv;
    destruct Hstep as [l' (news & Hnews & H2)| |].
  - eapply noSelfLoops_shrink; [exact H2|]. by apply noSelfLoops_app.
  - by apply noSelfLoops_remove.
  - by apply noSelfLoops_addNext.
  - eapply edgesDupFree_shrink; [exact H2|]. by apply edgesDupFree_app.
  - by apply edgesDupFree_remove.
  - by apply edgesDupFree_addNext.
Qed.

Lemma X2_sessions_keep_edges_simple_witness :
  noSelfLoops
    (TaskDetailModal.nodes
       (TaskDetailModal.run (gen := supplyGen) true (Some container0)
          sampleSession (mkState chainABC, ["1"; "2"])).1)
  ∧ edgesDupFree
      (TaskDetailModal.nodes
         (TaskDetailModal.run (gen := supplyGen) true (Some container0)
            sampleSession (mkState chainABC, ["1"; "2"])).1).
Proof.
  destruct (X2_sessions_keep_edges_simple (gen := supplyGen) true
              (Some container0) sampleSession (mkState chainABC, ["1"; "2"]))
    as [Hloops Hdup].
  split.
  - apply Hloops. apply (bool_decide_unpack _). vm_compute. exact I.
  - apply Hdup. apply (bool_decide_unpack _). vm_compute. exact I.
Defined.

Section SessionFacts.
Import TaskDetailModal.
Context {G : Type} {gen : UniqueIdGen G}.
Implicit Types (st : ModalState) (g : G).





Lemma addNext_ids source target (l : list SubStep) :
  id <$> (addNext source target <$> l) = id <$> l.
Proof.
  rewrite <- list_fmap_compose. apply list_fmap_ext. intros i ss _. simpl.
  unfold addNext. by case_decide.
Qed.





End SessionFacts.





(** ** Dragging *)

Section Drag.
Import TaskDetailModal.
Implicit Types (st : ModalState) (l : list SubStep).


Lemma handleSubStepDrop_again canEdit fc e1 e2 st :
  handleSubStepDrop canEdit fc e2 (handleSubStepDrop canEdit fc e1 st)
  = handleSubStepDrop canEdit fc e1 st.
Proof.
  assert (handleSubStepDrop canEdit fc e1 st = st
          ∨ draggedSubStepIdRef (handleSubStepDrop canEdit fc e1 st) = None)
    as [Hsame|Hdone].
  { unfold handleSubStepDrop.
    destruct (draggedSubStepIdRef st) as [dragged|]; [|by left].
    destruct fc as [c|]; [|by left]. destruct (_ || _); [by left|by right]. }
  - rewrite Hsame. unfold handleSubStepDrop in *.
    destruct (draggedSubStepIdRef st) as [dragged|] eqn:Hd; [|done].
    destruct fc as [c|]; [|done]. destruct (_ || _); [done|].
    apply (f_equal draggedSubStepIdRef) in Hsame. simpl in Hsame.
    congruence.
  - unfold handleSubStepDrop at 1. by rewrite Hdone.
Qed.

End Drag.



(** X6: one drag moves the card once: a second drop without a new drag
    start changes nothing, wherever it lands. *)
Theorem X6_second_drop_does_nothing
    (canEdit : bool) (flowContainerRef : option Container)
    (first second : PointerEvent) (st : TaskDetailModal.ModalState) :
  TaskDetailModal.handleSubStepDrop canEdit flowContainerRef second
    (TaskDetailModal.handleSubStepDrop canEdit flowContainerRef first st)
  = TaskDetailModal.handleSubStepDrop canEdit flowContainerRef first st.
Proof. apply handleSubStepDrop_again. Qed.

(** ** Connectors after a change of the sub-steps *)

Section ConnectorFacts.
Import TaskDetailModal.
Implicit Types (l : list SubStep) (ss source : SubStep) (st : ModalState).

(** Once the effects have run on a mounted canvas, the connectors are
    those of the current sub-steps. *)
Lemma settle_connectors c st :
  connectors (settle (Some c) st) = newConnectors (nodes st).
Proof.
  unfold settle, calculateConnectors.
  rewrite (bool_decide_eq_false_2 (Some c = None)) by done.
  case_bool_decide as Hsize; simpl; [|done].
  change (subStepCardRefs (initCardRefs st))
    with (list_to_set (id <$> nodes st) : gset string) in Hsize.
  change (subSteps (extendedDetails st)) with (nodes st).
  destruct (nodes st) as [|ss l]; [done|].
  apply size_empty_inv in Hsize.
  assert (id ss ∈ (list_to_set (id <$> ss :: l) : gset string)) as Hin.
  { apply elem_of_list_to_set. rewrite fmap_cons. left. }
  rewrite Hsize in Hin. by apply not_elem_of_empty in Hin.
Qed.

Lemma find_id_fmap (f : SubStep → SubStep) l w :
  (∀ ss, id (f ss) = id ss) → find_id w (f <$> l) = f <$> find_id w l.
Proof.
  intros Hf. induction l as [|ss l IH]; [done|].
  rewrite fmap_cons, !find_id_cons, Hf. by case_decide.
Qed.

Lemma find_id_filter l w i :
  find_id w (filter (λ ss, id ss ≠ i) l)
  = if decide (w = i) then None else find_id w l.
Proof.
  induction l as [|ss l IH].
  - by case_decide.
  - rewrite filter_cons. destruct (decide (id ss ≠ i)) as [Hne|Heq].
    + rewrite !find_id_cons, IH. repeat case_decide; congruence.
    + apply dec_stable in Heq. rewrite IH, find_id_cons.
      repeat case_decide; congruence.
Qed.

Lemma connectorTo_target l source pos tid conn :
  connectorTo l source pos tid = Some conn →
  targetId conn = tid ∧ sourceId conn = id source.
Proof.
  unfold connectorTo. destruct (find_id tid l); [|done]. by intros [= <-].
Qed.

(** A change of the sub-steps that keeps ids and positions changes a
    connector at most through the list of edges of its source. *)
Lemma connectorTo_fmap (f : SubStep → SubStep) l source tid :
  (∀ ss, id (f ss) = id ss) → (∀ ss, position (f ss) = position ss) →
  connectorTo (f <$> l) (f source) (sourcePosOf (f source)) tid
  = connectorTo l source (sourcePosOf source) tid.
Proof.
  intros Hid Hpos. unfold connectorTo, sourcePosOf.
  rewrite find_id_fmap, Hid, Hpos by done.
  destruct (find_id tid l) as [target|]; [|done]. simpl. by rewrite Hpos.
Qed.

Lemma omap_filter_target (h : string → option ConnectorInfo)
    (Q : string → Prop) `{!∀ t, Decision (Q t)} (ids : list string) :
  (∀ tid conn, h tid = Some conn → targetId conn = tid) →
  omap h (filter Q ids) = filter (λ conn, Q (targetId conn)) (omap h ids).
Proof.
  intros Hh. induction ids as [|tid ids IH]; [done|].
  rewrite filter_cons. csimpl.
  destruct (h tid) as [conn|] eqn:Hconn.
  - rewrite filter_cons, (Hh _ _ Hconn).
    destruct (decide (Q tid)); csimpl; rewrite ?Hconn, IH; done.
  - destruct (decide (Q tid)); csimpl; rewrite ?Hconn, IH; done.
Qed.

Lemma filter_bind {A B} (P : B → Prop) `{!∀ b, Decision (P b)}
    (f : A → list B) (l : list A) :
  filter P (l ≫= f) = l ≫= (λ a, filter P (f a)).
Proof.
  induction l as [|a l IH]; [done|]. by rewrite !bind_cons, filter_app, IH.
Qed.

Lemma filter_all {A} (P : A → Prop) `{!∀ a, Decision (P a)} (l : list A) :
  Forall P l → filter P l = l.
Proof.
  induction 1 as [|a l Ha _ IH]; [done|].
  by rewrite filter_cons_True, IH.
Qed.

Lemma filter_ext_in {A} (P Q : A → Prop) `{!∀ a, Decision (P a)}
    `{!∀ a, Decision (Q a)} (l : list A) :
  Forall (λ a, P a ↔ Q a) l → filter P l = filter Q l.
Proof.
  induction 1 as [|a l Ha _ IH]; [done|].
  rewrite !filter_cons, IH. destruct (decide (P a)), (decide (Q a)); tauto.
Qed.

Lemma filter_none {A} (P : A → Prop) `{!∀ a, Decision (P a)} (l : list A) :
  Forall (λ a, ¬ P a) l → filter P l = [].
Proof.
  induction 1 as [|a l Ha _ IH]; [done|]. by rewrite filter_cons_False.
Qed.

Lemma connectorsOf_sources l source :
  Forall (λ conn, sourceId conn = id source) (connectorsOf l source).
Proof.
  rewrite connectorsOf_omap. apply Forall_forall.
  intros conn (tid & _ & Hto)%list_elem_of_omap.
  by apply connectorTo_target in Hto as [_ ?].
Qed.

(** Deleting the connection from [source] to [target] takes away the
    connectors between these two ids and leaves every other connector as
    it was. *)
Lemma newConnectors_dropNext l src tgt :
  newConnectors (dropNext src tgt <$> l)
  = filter (λ conn, ¬ (sourceId conn = src ∧ targetId conn = tgt))
           (newConnectors l).
Proof.
  unfold newConnectors. rewrite filter_bind, list_fmap_bind.
  apply list_bind_ext; [|done]. intros ss. simpl.
  rewrite !connectorsOf_omap.
  assert (∀ tid,
    connectorTo (dropNext src tgt <$> l) (dropNext src tgt ss)
      (sourcePosOf (dropNext src tgt ss)) tid
    = connectorTo l ss (sourcePosOf ss) tid) as Hto.
  { intros tid. apply connectorTo_fmap; intros s'; unfold dropNext;
      by case_decide. }
  rewrite (list_omap_ext _ (connectorTo l ss (sourcePosOf ss))
             _ (orEmpty (nextSubStepIds (dropNext src tgt ss))));
    [|apply Forall_Forall2_diag, Forall_forall; intros tid _; apply Hto].
  unfold dropNext. case_decide as Hid; simpl.
  - rewrite (omap_filter_target _ (λ i, i ≠ tgt)).
    2:{ intros tid conn Hc. by apply connectorTo_target in Hc as [? _]. }
    apply filter_ext_in. apply Forall_forall.
    intros conn (tid & _ & Hc)%list_elem_of_omap.
    apply connectorTo_target in Hc as [_ Hsrc]. rewrite Hsrc, Hid.
    split; [by intros ? [_ ?]|]. intros Hnot Heq. by apply Hnot.
  - symmetry. apply filter_all.
    pose proof (connectorsOf_sources l ss) as Hsrc.
    rewrite connectorsOf_omap in Hsrc.
    eapply Forall_impl; [exact Hsrc|]. intros conn Hc [Hs _]. congruence.
Qed.

End ConnectorFacts.

Section ConnectorFacts2.
Import TaskDetailModal.
Implicit Types (l : list SubStep) (ss : SubStep) (st : ModalState).

Lemma bind_filter {A B} (P : A → Prop) `{!∀ a, Decision (P a)}
    (h : A → list B) (l : list A) :
  filter P l ≫= h = l ≫= (λ a, if decide (P a) then h a else []).
Proof.
  induction l as [|a l IH]; [done|].
  rewrite filter_cons, bind_cons. destruct (decide (P a)); [|done].
  by rewrite bind_cons, IH.
Qed.

Lemma orEmpty_filter (i : string) (o : option (list string)) :
  orEmpty (filter (λ j, j ≠ i) <$> o) = filter (λ j, j ≠ i) (orEmpty o).
Proof. by destruct o. Qed.

(** Deleting a sub-step takes away the connectors that start or end at
    its id and leaves every other connector as it was. *)
Lemma newConnectors_removeFrom l i :
  newConnectors (removeFrom i l)
  = filter (λ conn, sourceId conn ≠ i ∧ targetId conn ≠ i) (newConnectors l).
Proof.
  unfold newConnectors. rewrite filter_bind.
  unfold removeFrom at 2. rewrite list_fmap_bind, bind_filter.
  apply list_bind_ext; [|done]. intros ss. simpl.
  pose proof (connectorsOf_sources l ss) as Hsrc.
  case_decide as Hid.
  - rewrite connectorsOf_omap. simpl. rewrite orEmpty_filter.
    rewrite (list_omap_ext _ (connectorTo l ss (sourcePosOf ss))
               _ (filter (λ j, j ≠ i) (orEmpty (nextSubStepIds ss)))).
    2:{ apply Forall_Forall2_diag, Forall_forall.
        intros tid [Htid _]%list_elem_of_filter.
        unfold connectorTo, sourcePosOf, removeFrom. simpl.
        rewrite find_id_fmap by done. rewrite find_id_filter.
        rewrite decide_False by done.
        by destruct (find_id tid l). }
    rewrite (omap_filter_target _ (λ j, j ≠ i)).
    2:{ intros tid conn Hc. by apply connectorTo_target in Hc as [? _]. }
    rewrite <- connectorsOf_omap. apply filter_ext_in.
    eapply Forall_impl; [exact Hsrc|]. intros conn Hc. rewrite Hc. tauto.
  - symmetry. apply filter_none.
    eapply Forall_impl; [exact Hsrc|]. intros conn Hc [Hs _]. congruence.
Qed.

Lemma same_graph_ids l l' :
  Forall2 (λ a b, id b = id a ∧ nextSubStepIds b = nextSubStepIds a) l l' →
  id <$> l' = id <$> l.
Proof.
  induction 1 as [|a b ? ? [Hid _] _ IH]; [done|].
  by rewrite !fmap_cons, Hid, IH.
Qed.

(** Which connectors exist depends on the ids and the edge lists only. *)
Lemma drawnEdges_same_graph l l' :
  Forall2 (λ a b, id b = id a ∧ nextSubStepIds b = nextSubStepIds a) l l' →
  drawnEdges (newConnectors l') = drawnEdges (newConnectors l).
Proof.
  intros H2. unfold drawnEdges. rewrite !newConnectors_edges.
  rewrite (same_graph_ids _ _ H2).
  generalize (id <$> l). intros ids.
  induction H2 as [|a b ? ? [Hid Hnext] _ IH]; [done|].
  by rewrite !bind_cons, IH, Hid, Hnext.
Qed.

Lemma drawnEdges_fmap l (f : SubStep → SubStep) :
  (∀ ss, id (f ss) = id ss ∧ nextSubStepIds (f ss) = nextSubStepIds ss) →
  drawnEdges (newConnectors (f <$> l)) = drawnEdges (newConnectors l).
Proof.
  intros Hf. apply drawnEdges_same_graph.
  apply Forall2_fmap_r, Forall_Forall2_diag, Forall_forall.
  intros ss _. apply Hf.
Qed.

(** Without dangling edges every stored edge is drawn. *)
Lemma drawnEdges_all l :
  referentialIntegrity l → drawnEdges (newConnectors l) = storedEdges l.
Proof.
  intros HRI. unfold drawnEdges, storedEdges. rewrite newConnectors_edges.
  apply Forall_bind_ext. eapply Forall_impl; [exact HRI|].
  intros ss Hss. simpl. by rewrite filter_all.
Qed.

Lemma uniqueIds_inj l a b :
  uniqueIds l → a ∈ l → b ∈ l → id a = id b → a = b.
Proof.
  unfold uniqueIds. intros Hnd [i Hi]%list_elem_of_lookup_1
    [j Hj]%list_elem_of_lookup_1 Hid.
  assert (i = j) as ->; [|congruence].
  eapply (NoDup_lookup (id <$> l)); [done| |].
  - by rewrite list_lookup_fmap, Hi.
  - rewrite list_lookup_fmap, Hj. simpl. congruence.
Qed.

Lemma drawnEdges_NoDup l :
  uniqueIds l → edgesDupFree l → NoDup (drawnEdges (newConnectors l)).
Proof.
  intros Hids Hdup. unfold drawnEdges. rewrite newConnectors_edges.
  apply NoDup_bind.
  - intros a b [s t] Ha Hb (ta & [= -> ->] & _)%list_elem_of_fmap
      (tb & [= Hid _] & _)%list_elem_of_fmap.
    by eapply uniqueIds_inj.
  - intros ss Hss. apply NoDup_fmap_2; [by intros ?? [= ->]|].
    apply NoDup_filter. unfold edgesDupFree in Hdup.
    rewrite Forall_forall in Hdup. by apply Hdup.
  - by eapply NoDup_fmap_1.
Qed.

End ConnectorFacts2.

(** X7: deleting a connection undoes the connect gesture that made it:
    after [handleDeleteConnection] no sub-step with the source id lists
    the target; and when the sub-steps with the source id had
    duplicate-free edge lists without the target, a connect gesture
    followed by the deletion of that connection gives back every
    sub-step with the same edges and all other fields unchanged (an
    absent [nextSubStepIds] of the source comes back as an empty
    list). *)
Theorem X7_disconnect_undoes_connect
    (c : Container) (down : PointerEvent) (source target : string)
    (st : TaskDetailModal.ModalState) :
  (∀ ss,
     ss ∈ TaskDetailModal.nodes
            (TaskDetailModal.handleDeleteConnection true source target st) →
     id ss = source → target ∉ orEmpty (nextSubStepIds ss))
  ∧ (source ≠ target →
     (∀ ss, ss ∈ TaskDetailModal.nodes st → id ss = source →
            NoDup (orEmpty (nextSubStepIds ss))
            ∧ target ∉ orEmpty (nextSubStepIds ss)) →
     Forall2
       (λ ss ss',
          with_nextSubStepIds None ss' = with_nextSubStepIds None ss
          ∧ orEmpty (nextSubStepIds ss') = orEmpty (nextSubStepIds ss)
          ∧ (id ss ≠ source → ss' = ss))
       (TaskDetailModal.nodes st)
       (TaskDetailModal.nodes
          (TaskDetailModal.handleDeleteConnection true source target
             (connect c down source target st)))).
Proof.
  split.
  - rewrite handleDeleteConnection_nodes.
    intros ss' (ss & -> & _)%list_elem_of_fmap. unfold dropNext.
    case_decide; [|done]. simpl. intros _.
    rewrite list_elem_of_filter. by intros [? _].
  - intros Hne Hfresh.
    rewrite handleDeleteConnection_nodes, connect_nodes.
    rewrite decide_False by done. rewrite <- list_fmap_compose.
    apply Forall2_fmap_r, Forall_Forall2_diag, Forall_forall.
    intros ss Hin. unfold compose, addNext, dropNext.
    destruct (decide (id ss = source)) as [Hid|Hid].
    + simpl. rewrite decide_True by done. simpl.
      destruct (Hfresh ss Hin Hid) as [Hnd Hout].
      rewrite Array_from_Set_fresh.
      2:{ apply NoDup_app. split_and!; [done| |apply NoDup_singleton].
          by intros i Hi ->%list_elem_of_singleton. }
      rewrite filter_app, filter_absent by done.
      rewrite filter_cons_False by (by intros H; apply H).
      rewrite filter_nil, app_nil_r. done.
    + by rewrite decide_False.
Qed.

Lemma X7_disconnect_undoes_connect_witness :
  Forall2
    (λ ss ss',
       with_nextSubStepIds None ss' = with_nextSubStepIds None ss
       ∧ orEmpty (nextSubStepIds ss') = orEmpty (nextSubStepIds ss)
       ∧ (id ss ≠ "A" → ss' = ss))
    chainABC
    (TaskDetailModal.nodes
       (TaskDetailModal.handleDeleteConnection true "A" "C"
          (connect container0 {| clientX := 250; clientY := 110 |} "A" "C"
             (mkState chainABC)))).
Proof.
  apply (proj2 (X7_disconnect_undoes_connect container0
                  {| clientX := 250; clientY := 110 |} "A" "C"
                  (mkState chainABC))).
  - discriminate.
  - intros ss Hin Hid. apply (bool_decide_unpack _).
    repeat (apply elem_of_cons in Hin as [->|Hin]; [by vm_compute|]).
    by apply elem_of_nil in Hin.
Defined.

(** X8: deleting a connection takes away exactly the connectors between
    the two ids: once the effects have run, the connectors are the
    former connectors without those from the source id to the target id,
    each remaining one unchanged. *)
Theorem X8_delete_connection_removes_its_connectors
    (c : Container) (source target : string)
    (st : TaskDetailModal.ModalState) :
  TaskDetailModal.connectors
    (TaskDetailModal.settle (Some c)
       (TaskDetailModal.handleDeleteConnection true source target st))
  = filter (λ conn, ¬ (sourceId conn = source ∧ targetId conn = target))
           (TaskDetailModal.connectors (TaskDetailModal.settle (Some c) st)).
Proof.
  rewrite !settle_connectors, handleDeleteConnection_nodes.
  apply newConnectors_dropNext.
Qed.

(** X9: deleting a sub-step takes away exactly the connectors that start
    or end at its id: once the effects have run, the connectors are the
    former connectors without those, each remaining one unchanged. *)
Theorem X9_remove_node_removes_its_connectors
    (c : Container) (subStepId : string) (st : TaskDetailModal.ModalState) :
  TaskDetailModal.connectors
    (TaskDetailModal.settle (Some c)
       (TaskDetailModal.handleRemoveSubStep true true subStepId st))
  = filter (λ conn, sourceId conn ≠ subStepId ∧ targetId conn ≠ subStepId)
           (TaskDetailModal.connectors (TaskDetailModal.settle (Some c) st)).
Proof.
  rewrite !settle_connectors, handleRemoveSubStep_nodes.
  apply newConnectors_removeFrom.
Qed.

(** X10: without dangling edges nothing is left out: once the effects
    have run on a mounted canvas, the connectors are, in order, one per
    stored edge. *)
Theorem X10_every_edge_is_drawn
    (c : Container) (st : TaskDetailModal.ModalState) :
  referentialIntegrity (TaskDetailModal.nodes st) →
  drawnEdges
    (TaskDetailModal.connectors (TaskDetailModal.settle (Some c) st))
  = storedEdges (TaskDetailModal.nodes st).
Proof. intros HRI. rewrite settle_connectors. by apply drawnEdges_all. Qed.

Lemma X10_every_edge_is_drawn_witness :
  drawnEdges
    (TaskDetailModal.connectors
       (TaskDetailModal.settle (Some container0) (mkState chainABC)))
  = [("A", "B"); ("B", "C")].
Proof.
  apply (X10_every_edge_is_drawn container0 (mkState chainABC)).
  apply (bool_decide_unpack _). vm_compute. exact I.
Defined.

(** X11: with unique sub-step ids and duplicate-free edge lists no two
    connectors join the same source id to the same target id. *)
Theorem X11_connectors_are_distinct
    (c : Container) (st : TaskDetailModal.ModalState) :
  uniqueIds (TaskDetailModal.nodes st) →
  edgesDupFree (TaskDetailModal.nodes st) →
  NoDup (drawnEdges
           (TaskDetailModal.connectors (TaskDetailModal.settle (Some c) st))).
Proof.
  intros Hids Hdup. rewrite settle_connectors. by apply drawnEdges_NoDup.
Qed.

Lemma X11_connectors_are_distinct_witness :
  NoDup (drawnEdges
           (TaskDetailModal.connectors
              (TaskDetailModal.settle (Some container0) (mkState chainABC)))).
Proof.
  apply X11_connectors_are_distinct;
    apply (bool_decide_unpack _); vm_compute; exact I.
Defined.

(** X12: a connect gesture between two different present sub-steps is
    drawn: once the effects have run, there is a connector from the
    source id to the target id. *)
Theorem X12_connect_is_drawn
    (c : Container) (down : PointerEvent) (source target : string)
    (st : TaskDetailModal.ModalState) :
  source ≠ target →
  source ∈ id <$> TaskDetailModal.nodes st →
  target ∈ id <$> TaskDetailModal.nodes st →
  (source, target)
  ∈ drawnEdges
      (TaskDetailModal.connectors
         (TaskDetailModal.settle (Some c) (connect c down source target st))).
Proof.
  intros Hne (ss & -> & Hin)%list_elem_of_fmap Htarget.
  rewrite settle_connectors, connect_nodes, decide_False by done.
  unfold drawnEdges. rewrite newConnectors_edges.
  apply list_elem_of_bind. exists (addNext (id ss) target ss).
  split; [|apply list_elem_of_fmap; eauto].
  assert (id (addNext (id ss) target ss) = id ss) as Hid.
  { unfold addNext. by case_decide. }
  apply list_elem_of_fmap. exists target. rewrite Hid. split; [done|].
  apply list_elem_of_filter. split.
  - by rewrite addNext_ids.
  - unfold addNext. rewrite decide_True by done. simpl.
    rewrite Array_from_Set_elem_of, elem_of_app, list_elem_of_singleton.
    by right.
Qed.

Lemma X12_connect_is_drawn_witness :
  ("A", "C")
  ∈ drawnEdges
      (TaskDetailModal.connectors
         (TaskDetailModal.settle (Some container0)
            (connect container0 {| clientX := 250; clientY := 110 |}
               "A" "C" (mkState chainABC)))).
Proof.
  apply X12_connect_is_drawn;
    [discriminate | apply (bool_decide_unpack _); vm_compute; exact I..].
Defined.

(** X13: moving, laying out or editing never adds or removes a
    connector: after a drop, an auto-layout, an edit of the detail panel
    or a change of action items, the connectors join the same ids, in the
    same order, as before. *)
Theorem X13_moves_and_edits_keep_the_connectors
    {G : Type} {gen : UniqueIdGen G}
    (c : Container) (st : TaskDetailModal.ModalState) :
  let drawn st' :=
    drawnEdges
      (TaskDetailModal.connectors (TaskDetailModal.settle (Some c) st')) in
  (∀ canEdit fc e,
     drawn (TaskDetailModal.handleSubStepDrop canEdit fc e st) = drawn st)
  ∧ (∀ fc, drawn (TaskDetailModal.handleAutoLayoutSubSteps fc st) = drawn st)
  ∧ (∀ canEdit subStepId edit,
       drawn (TaskDetailModal.handleUpdateSubStep canEdit subStepId
                (applySubStepEdit edit) st) = drawn st)
  ∧ (∀ canEdit subStepId (g : G),
       drawn (TaskDetailModal.handleAddActionItem canEdit subStepId st g).1
       = drawn st)
  ∧ (∀ canEdit subStepId actionItemId updates,
       drawn (TaskDetailModal.handleUpdateActionItem canEdit subStepId
                actionItemId updates st) = drawn st)
  ∧ (∀ canEdit confirmed subStepId actionItemId,
       drawn (TaskDetailModal.handleRemoveActionItem canEdit confirmed
                subStepId actionItemId st) = drawn st).
Proof.
  intros drawn. unfold drawn. split_and!; intros; rewrite !settle_connectors.
  - unfold TaskDetailModal.handleSubStepDrop.
    destruct (TaskDetailModal.draggedSubStepIdRef st); [|done].
    destruct fc; [|done]. destruct (_ || _); [done|]. simpl.
    apply drawnEdges_fmap. intros ss. by case_decide.
  - rewrite handleAutoLayoutSubSteps_nodes. apply drawnEdges_same_graph.
    apply Forall2_same_length_lookup_2; [by rewrite length_imap|].
    intros i a b Ha. rewrite list_lookup_imap, Ha. by intros [= <-].
  - destruct canEdit; [|done]. rewrite handleUpdateSubStep_nodes.
    apply drawnEdges_fmap. intros ss. by case_decide.
  - unfold TaskDetailModal.handleAddActionItem. destruct canEdit; [|done].
    simpl. destruct (generateUniqueId "action" g). simpl.
    apply drawnEdges_fmap. intros ss. by case_decide.
  - destruct canEdit; [|done]. simpl.
    apply drawnEdges_fmap. intros ss. by case_decide.
  - destruct canEdit, confirmed; try done. simpl.
    apply drawnEdges_fmap. intros ss. by case_decide.
Qed.

(** ** The grid of the auto-layout *)

Lemma gridPosition_disjoint (margin : Z) (i j : nat) :
  i ≠ j → ¬ cardsOverlap (gridPosition margin i) (gridPosition margin j).
Proof.
  unfold cardsOverlap, gridPosition, HORIZONTAL_SPACING, VERTICAL_SPACING,
    CARD_WIDTH, CARD_HEIGHT. simpl.
  intros Hne [Hx Hy].
  assert (Z.of_nat i ≠ Z.of_nat j) as Hz by lia.
  assert (0 ≤ Z.of_nat i)%Z by lia. assert (0 ≤ Z.of_nat j)%Z by lia.
  revert Hx Hy Hz. generalize dependent (Z.of_nat i).
  generalize dependent (Z.of_nat j). intros zj _ zi _ Hx Hy Hz.
  Z.div_mod_to_equations. lia.
Qed.

Lemma gridPosition_inside (margin : Z) (i : nat) :
  (margin = 20 ∨ margin = 50)%Z →
  insideCanvas TaskDetailModal.defaultCanvasSize (gridPosition margin i)
  ↔ (i < 15)%nat.
Proof.
  unfold insideCanvas, gridPosition, HORIZONTAL_SPACING, VERTICAL_SPACING,
    CARD_WIDTH, CARD_HEIGHT. simpl. intros Hmargin.
  assert (0 ≤ Z.of_nat i)%Z as Hpos by lia.
  assert ((i < 15)%nat ↔ (Z.of_nat i < 15)%Z) as -> by lia.
  revert Hpos. generalize (Z.of_nat i). intros z Hz.
  Z.div_mod_to_equations. lia.
Qed.

(** X14: the auto-layout never puts two cards on top of each other: in
    both components any two sub-steps of the laid-out list are placed,
    and their 200 x 120 cards share no area. *)
Theorem X14_auto_layout_never_overlaps :
  (∀ fc (st : TaskDetailModal.ModalState) i j a b,
     i ≠ j →
     TaskDetailModal.nodes (TaskDetailModal.handleAutoLayoutSubSteps fc st) !! i
     = Some a →
     TaskDetailModal.nodes (TaskDetailModal.handleAutoLayoutSubSteps fc st) !! j
     = Some b →
     ∃ p q, position a = Some p ∧ position b = Some q ∧ ¬ cardsOverlap p q)
  ∧ (∀ (st : Part000.ModalState) i j a b,
       i ≠ j →
       Part000.nodes (Part000.handleAutoLayout true st) !! i = Some a →
       Part000.nodes (Part000.handleAutoLayout true st) !! j = Some b →
       ∃ p q, position a = Some p ∧ position b = Some q ∧ ¬ cardsOverlap p q).
Proof.
  split.
  - intros fc st i j a b Hne. rewrite handleAutoLayoutSubSteps_nodes.
    rewrite !layout_lookup. intros Ha Hb.
    destruct (TaskDetailModal.nodes st !! i); [|done].
    destruct (TaskDetailModal.nodes st !! j); [|done].
    injection Ha as <-. injection Hb as <-.
    eexists _, _. split_and!; [done..|]. by apply gridPosition_disjoint.
  - intros st i j a b Hne.
    change (Part000.nodes (Part000.handleAutoLayout true st))
      with (imap (λ index subStep,
                    with_position (Some (gridPosition Part000.MARGIN index))
                                  subStep) (Part000.nodes st)).
    rewrite !layout_lookup. intros Ha Hb.
    destruct (Part000.nodes st !! i); [|done].
    destruct (Part000.nodes st !! j); [|done].
    injection Ha as <-. injection Hb as <-.
    eexists _, _. split_and!; [done..|]. by apply gridPosition_disjoint.
Qed.

Lemma X14_auto_layout_never_overlaps_witness :
  ∃ p q,
    position (mkSubStep "A" (Some {| x := 20; y := 20 |}) (Some ["B"]))
    = Some p
    ∧ position (mkSubStep "C" (Some {| x := 520; y := 20 |}) None) = Some q
    ∧ ¬ cardsOverlap p q.
Proof.
  apply (proj1 X14_auto_layout_never_overlaps None (mkState chainABC)
           0%nat 2%nat); [discriminate|reflexivity..].
Defined.

(** X15: the auto-layout does not clamp: in both components the card at
    index [i] of the laid-out list lies inside the default 1200 x 800
    canvas exactly when [i < 15]; from the sixteenth card on the grid
    runs below the canvas. *)
Theorem X15_auto_layout_fits_fifteen_cards :
  (∀ fc (st : TaskDetailModal.ModalState) i a,
     TaskDetailModal.nodes (TaskDetailModal.handleAutoLayoutSubSteps fc st) !! i
     = Some a →
     ∃ p, position a = Some p
          ∧ (insideCanvas TaskDetailModal.defaultCanvasSize p ↔ (i < 15)%nat))
  ∧ (∀ (st : Part000.ModalState) i a,
       Part000.nodes (Part000.handleAutoLayout true st) !! i = Some a →
       ∃ p, position a = Some p
            ∧ (insideCanvas TaskDetailModal.defaultCanvasSize p
               ↔ (i < 15)%nat)).
Proof.
  split.
  - intros fc st i a. rewrite handleAutoLayoutSubSteps_nodes, layout_lookup.
    destruct (TaskDetailModal.nodes st !! i); [|done]. intros [= <-].
    eexists. split; [done|]. apply gridPosition_inside. by left.
  - intros st i a.
    change (Part000.nodes (Part000.handleAutoLayout true st))
      with (imap (λ index subStep,
                    with_position (Some (gridPosition Part000.MARGIN index))
                                  subStep) (Part000.nodes st)).
    rewrite layout_lookup.
    destruct (Part000.nodes st !! i); [|done]. intros [= <-].
    eexists. split; [done|]. apply gridPosition_inside. by right.
Qed.

Lemma X15_auto_layout_fits_fifteen_cards_witness :
  ∃ p,
    position (mkSubStep "n4" (Some {| x := 50; y := 200 |}) None) = Some p
    ∧ (insideCanvas TaskDetailModal.defaultCanvasSize p ↔ (3 < 15)%nat).
Proof.
  apply (proj2 X15_auto_layout_fits_fifteen_cards (mkState000 fourNodes)
           3%nat).
  reflexivity.
Defined.

(** ** Adding and deleting sub-steps *)

Section NodeFacts.
Import TaskDetailModal.
Implicit Types (l : list SubStep) (ss : SubStep) (st : ModalState).

Lemma removeFrom_ids l i :
  id <$> removeFrom i l = filter (λ j, j ≠ i) (id <$> l).
Proof.
  unfold removeFrom. rewrite <- list_fmap_compose.
  induction l as [|ss l IH]; [done|].
  rewrite fmap_cons, !filter_cons. simpl.
  destruct (decide (id ss ≠ i)); by rewrite ?fmap_cons, IH.
Qed.

(** Deleting an id that no sub-step carries or lists changes nothing. *)
Lemma removeFrom_absent l i :
  i ∉ id <$> l → (∀ ss, ss ∈ l → i ∉ orEmpty (nextSubStepIds ss)) →
  removeFrom i l = l.
Proof.
  intros Hid Hnext. unfold removeFrom. rewrite filter_all.
  - rewrite <- (list_fmap_id l) at 2. apply list_fmap_ext.
    intros k ss Hk. simpl.
    rewrite filter_absent_option
      by (eapply Hnext, list_elem_of_lookup_2, Hk).
    apply with_nextSubStepIds_same.
  - apply Forall_forall. intros ss Hin Heq. apply Hid.
    apply list_elem_of_fmap. eauto.
Qed.

Lemma removeFrom_twice l i : removeFrom i (removeFrom i l) = removeFrom i l.
Proof.
  apply removeFrom_absent.
  - rewrite removeFrom_ids, list_elem_of_filter. by intros [? _].
  - unfold removeFrom. intros ss' (ss & -> & _)%list_elem_of_fmap. simpl.
    rewrite orEmpty_filter, list_elem_of_filter. by intros [? _].
Qed.

Lemma removeFrom_app l1 l2 i :
  removeFrom i (l1 ++ l2) = removeFrom i l1 ++ removeFrom i l2.
Proof. unfold removeFrom. by rewrite filter_app, fmap_app. Qed.

Lemma handleRemoveSubStep_shape subStepId st :
  handleRemoveSubStep true true subStepId st
  = (if bool_decide (id <$> selectedSubStep st = Some subStepId)
     then setSelectedSubStep None else λ st', st')
      (setSubSteps (removeFrom subStepId (nodes st)) st).
Proof. unfold handleRemoveSubStep. simpl. by destruct (bool_decide _). Qed.

Lemma handleRemoveSubStep_twice subStepId st :
  handleRemoveSubStep true true subStepId
    (handleRemoveSubStep true true subStepId st)
  = handleRemoveSubStep true true subStepId st.
Proof.
  rewrite (handleRemoveSubStep_shape subStepId st).
  destruct (bool_decide (id <$> selectedSubStep st = Some subStepId))
    eqn:Hsel; rewrite handleRemoveSubStep_shape;
    cbn [nodes setSubSteps setSelectedSubStep setExtendedDetails
         extendedDetails subSteps with_subSteps selectedSubStep];
    rewrite ?Hsel, removeFrom_twice; reflexivity.
Qed.

Lemma handleRemoveSubStep_removeFrom subStepId st :
  nodes (handleRemoveSubStep true true subStepId st)
  = removeFrom subStepId (nodes st).
Proof. apply handleRemoveSubStep_nodes. Qed.

Lemma handleAddSubStep_appends {G : Type} {gen : UniqueIdGen G} st (g : G) :
  ∃ new,
    nodes (handleAddSubStep true st g).1 = nodes st ++ [new]
    ∧ id new = (generateUniqueId "substep" g).1
    ∧ nextSubStepIds new = None.
Proof.
  unfold handleAddSubStep. simpl.
  destruct (generateUniqueId "substep" g) as [i g']. simpl.
  eexists. split; [reflexivity|]. done.
Qed.

Lemma fmap_same_ids l (f : SubStep → SubStep) :
  (∀ ss, id (f ss) = id ss) → id <$> (f <$> l) = id <$> l.
Proof.
  intros Hf. rewrite <- list_fmap_compose. apply list_fmap_ext.
  intros i ss _. apply Hf.
Qed.

End NodeFacts.

(** X16: deleting is idempotent and harmless on unknown ids: deleting
    the same id a second time changes nothing in the state, and deleting
    an id that no sub-step carries or lists leaves the sub-steps as they
    are. *)
Theorem X16_remove_twice_or_unknown
    (subStepId : string) (st : TaskDetailModal.ModalState) :
  TaskDetailModal.handleRemoveSubStep true true subStepId
    (TaskDetailModal.handleRemoveSubStep true true subStepId st)
  = TaskDetailModal.handleRemoveSubStep true true subStepId st
  ∧ ((subStepId ∉ id <$> TaskDetailModal.nodes st) →
     (∀ ss, ss ∈ TaskDetailModal.nodes st →
            subStepId ∉ orEmpty (nextSubStepIds ss)) →
     TaskDetailModal.nodes
       (TaskDetailModal.handleRemoveSubStep true true subStepId st)
     = TaskDetailModal.nodes st).
Proof.
  split; [apply handleRemoveSubStep_twice|].
  intros Hid Hnext. rewrite handleRemoveSubStep_nodes.
  by apply removeFrom_absent.
Qed.

Lemma X16_remove_twice_or_unknown_witness :
  TaskDetailModal.nodes
    (TaskDetailModal.handleRemoveSubStep true true "Z" (mkState chainABC))
  = chainABC.
Proof.
  apply (proj2 (X16_remove_twice_or_unknown "Z" (mkState chainABC))).
  - apply (bool_decide_unpack _). vm_compute. exact I.
  - intros ss Hin. apply (bool_decide_unpack _).
    repeat (apply elem_of_cons in Hin as [->|Hin]; [by vm_compute|]).
    by apply elem_of_nil in Hin.
Defined.

(** X17: deleting the sub-step that was just added undoes the addition:
    when the generated id is new to the set and listed nowhere, adding a
    sub-step and deleting it again gives back the sub-steps as they
    were. *)
Theorem X17_remove_undoes_add
    {G : Type} {gen : UniqueIdGen G}
    (st : TaskDetailModal.ModalState) (g : G) :
  let newId := (generateUniqueId "substep" g).1 in
  (newId ∉ id <$> TaskDetailModal.nodes st) →
  (∀ ss, ss ∈ TaskDetailModal.nodes st →
         newId ∉ orEmpty (nextSubStepIds ss)) →
  TaskDetailModal.nodes
    (TaskDetailModal.handleRemoveSubStep true true newId
       (TaskDetailModal.handleAddSubStep true st g).1)
  = TaskDetailModal.nodes st.
Proof.
  intros newId Hid Hnext. rewrite handleRemoveSubStep_removeFrom.
  destruct (handleAddSubStep_appends st g) as (new & -> & Hnew & Hnone).
  rewrite removeFrom_app, removeFrom_absent by done.
  unfold removeFrom.
  rewrite filter_cons_False by (intros H; apply H; exact Hnew).
  by rewrite filter_nil, app_nil_r.
Qed.

Lemma X17_remove_undoes_add_witness :
  TaskDetailModal.nodes
    (TaskDetailModal.handleRemoveSubStep true true "substep-1"
       (TaskDetailModal.handleAddSubStep (gen := supplyGen) true
          (mkState chainABC) ["1"]).1)
  = chainABC.
Proof.
  apply (X17_remove_undoes_add (gen := supplyGen) (mkState chainABC) ["1"]).
  - apply (bool_decide_unpack _). vm_compute. exact I.
  - intros ss Hin. apply (bool_decide_unpack _).
    repeat (apply elem_of_cons in Hin as [->|Hin]; [by vm_compute|]).
    by apply elem_of_nil in Hin.
Defined.

(** X18: sub-step ids stay unique: when no two sub-steps share an id,
    this still holds after deleting a sub-step, connecting,
    disconnecting, laying out, dropping a card, editing in the panel or
    changing action items, and after adding a sub-step whenever the
    generated id is not yet in the set. *)
Theorem X18_ids_stay_unique
    {G : Type} {gen : UniqueIdGen G} (st : TaskDetailModal.ModalState) :
  uniqueIds (TaskDetailModal.nodes st) →
  (∀ canEdit (g : G),
     ((generateUniqueId "substep" g).1 ∉ id <$> TaskDetailModal.nodes st) →
     uniqueIds
       (TaskDetailModal.nodes (TaskDetailModal.handleAddSubStep canEdit st g).1))
  ∧ (∀ canEdit confirmed subStepId,
       uniqueIds
         (TaskDetailModal.nodes
            (TaskDetailModal.handleRemoveSubStep canEdit confirmed
               subStepId st)))
  ∧ (∀ canEdit target,
       uniqueIds
         (TaskDetailModal.nodes
            (TaskDetailModal.handleEndConnection canEdit target st)))
  ∧ (∀ canEdit source target,
       uniqueIds
         (TaskDetailModal.nodes
            (TaskDetailModal.handleDeleteConnection canEdit source target st)))
  ∧ (∀ fc,
       uniqueIds
         (TaskDetailModal.nodes (TaskDetailModal.handleAutoLayoutSubSteps fc st)))
  ∧ (∀ canEdit fc e,
       uniqueIds
         (TaskDetailModal.nodes
            (TaskDetailModal.handleSubStepDrop canEdit fc e st)))
  ∧ (∀ canEdit subStepId edit,
       uniqueIds
         (TaskDetailModal.nodes
            (TaskDetailModal.handleUpdateSubStep canEdit subStepId
               (applySubStepEdit edit) st)))
  ∧ (∀ canEdit subStepId (g : G),
       uniqueIds
         (TaskDetailModal.nodes
            (TaskDetailModal.handleAddActionItem canEdit subStepId st g).1)).
Proof.
  unfold uniqueIds. intros Hunique. split_and!; intros.
  - destruct canEdit; [|done].
    destruct (handleAddSubStep_appends st g) as (new & -> & Hnew & _).
    rewrite fmap_app. apply NoDup_app. split_and!; [done| |].
    + intros j Hj Hin. simpl in Hin.
      apply list_elem_of_singleton in Hin as ->. congruence.
    + apply NoDup_singleton.
  - destruct canEdit, confirmed; try done.
    rewrite handleRemoveSubStep_removeFrom, removeFrom_ids.
    by apply NoDup_filter.
  - rewrite handleEndConnection_nodes.
    destruct (TaskDetailModal.connectingState st); [|done].
    destruct (_ || _); [done|]. by rewrite addNext_ids.
  - destruct canEdit; [|done]. rewrite handleDeleteConnection_nodes.
    rewrite fmap_same_ids; [done|]. intros ss. unfold dropNext.
    by case_decide.
  - rewrite handleAutoLayoutSubSteps_nodes.
    replace (id <$> imap _ (TaskDetailModal.nodes st))
      with (id <$> TaskDetailModal.nodes st); [done|].
    apply list_eq. intros i.
    rewrite !list_lookup_fmap, list_lookup_imap.
    by destruct (TaskDetailModal.nodes st !! i).
  - unfold TaskDetailModal.handleSubStepDrop.
    destruct (TaskDetailModal.draggedSubStepIdRef st); [|done].
    destruct fc; [|done]. destruct (_ || _); [done|].
    match goal with
    | |- NoDup ?ids =>
        assert (ids = id <$> TaskDetailModal.nodes st) as ->; [|done]
    end.
    apply fmap_same_ids. intros ss. by case_decide.
  - destruct canEdit; [|done]. rewrite handleUpdateSubStep_nodes.
    rewrite fmap_same_ids; [done|]. intros ss. by case_decide.
  - unfold TaskDetailModal.handleAddActionItem. destruct canEdit; [|done].
    simpl. destruct (generateUniqueId "action" g).
    match goal with
    | |- NoDup ?ids =>
        assert (ids = id <$> TaskDetailModal.nodes st) as ->; [|done]
    end.
    apply fmap_same_ids. intros ss. by case_decide.
Qed.

Lemma X18_ids_stay_unique_witness :
  uniqueIds
    (TaskDetailModal.nodes
       (TaskDetailModal.handleAddSubStep (gen := supplyGen) true
          (mkState chainABC) ["1"]).1)
  ∧ uniqueIds
      (TaskDetailModal.nodes
         (TaskDetailModal.handleRemoveSubStep true true "B"
            (mkState chainABC))).
Proof.
  assert (uniqueIds (TaskDetailModal.nodes (mkState chainABC))) as Hunique.
  { apply (bool_decide_unpack _). vm_compute. exact I. }
  destruct (X18_ids_stay_unique (gen := supplyGen) (mkState chainABC) Hunique)
    as (Hadd & Hremove & _).
  split; [|apply Hremove].
  apply Hadd. apply (bool_decide_unpack _). vm_compute. exact I.
Defined.

(** ** Action items *)

Section ActionItemFacts.
Import TaskDetailModal.
Implicit Types (st : ModalState) (l : list SubStep).

Lemma with_actionItems_twice a b (ss : SubStep) :
  with_actionItems a (with_actionItems b ss) = with_actionItems a ss.
Proof. by destruct ss. Qed.

Lemma handleAddActionItem_nodes {G : Type} {gen : UniqueIdGen G}
    subStepId st (g : G) :
  nodes (handleAddActionItem true subStepId st g).1
  = (λ ss,
       if decide (id ss = subStepId)
       then with_actionItems
              (Some (orEmpty (actionItems ss)
                     ++ [{| ai_id := (generateUniqueId "action" g).1;
                            ai_text := NEW_ACTION_ITEM_TEXT;
                            completed := false |}])) ss
       else ss) <$> nodes st.
Proof.
  unfold handleAddActionItem. simpl.
  by destruct (generateUniqueId "action" g).
Qed.

Lemma handleAddActionItem_gen {G : Type} {gen : UniqueIdGen G}
    subStepId st (g : G) :
  (handleAddActionItem true subStepId st g).2 = (generateUniqueId "action" g).2.
Proof.
  unfold handleAddActionItem. simpl.
  by destruct (generateUniqueId "action" g).
Qed.

Lemma summaryActionItems_count st :
  summaryActionItems st = countActionItems (nodes st).
Proof.
  unfold summaryActionItems, countActionItems.
  enough (∀ l n,
            foldl (λ total ss,
                     (total + length (orEmpty (actionItems ss)))%nat) n l
            = (n + sum_list_with
                     (λ ss, length (orEmpty (actionItems ss))) l)%nat)
    as Hfold by apply (Hfold _ 0%nat).
  induction l as [|ss l IH]; intros n; simpl; [lia|]. rewrite IH. lia.
Qed.


(** The count when one function is applied to every sub-step with a
    unique, present id. *)
Lemma countActionItems_at l subStepId (f : SubStep → SubStep) card :
  uniqueIds l → find_id subStepId l = Some card →
  (countActionItems
     ((λ ss, if decide (id ss = subStepId) then f ss else ss) <$> l)
   + length (orEmpty (actionItems card)))%nat
  = (countActionItems l + length (orEmpty (actionItems (f card))))%nat.
Proof.
  unfold countActionItems, uniqueIds.
  induction l as [|ss l IH]; intros Hnd Hfind; [done|].
  rewrite fmap_cons in Hnd. apply NoDup_cons in Hnd as [Hnotin Hnd].
  rewrite find_id_cons in Hfind. rewrite fmap_cons. simpl.
  destruct (decide (id ss = subStepId)) as [Hid|Hid].
  - injection Hfind as ->.
    assert ((λ ss, if decide (id ss = subStepId) then f ss else ss) <$> l = l)
      as ->; [|lia].
    rewrite <- (list_fmap_id l) at 2. apply list_fmap_ext.
    intros i ss Hss. case_decide as Hid'; [|done]. destruct Hnotin.
    rewrite Hid, <- Hid'. apply list_elem_of_fmap_2.
    by eapply list_elem_of_lookup_2.
  - specialize (IH Hnd Hfind). lia.
Qed.

Lemma countActionItems_le l (f : SubStep → SubStep) :
  (∀ ss, length (orEmpty (actionItems (f ss)))
         ≤ length (orEmpty (actionItems ss)))%nat →
  (countActionItems (f <$> l) ≤ countActionItems l)%nat.
Proof.
  intros Hf. unfold countActionItems.
  induction l as [|ss l IH]; [done|]. rewrite fmap_cons. simpl.
  specialize (Hf ss). lia.
Qed.

Lemma countActionItems_same l (f : SubStep → SubStep) :
  (∀ ss, length (orEmpty (actionItems (f ss)))
         = length (orEmpty (actionItems ss))) →
  countActionItems (f <$> l) = countActionItems l.
Proof.
  intros Hf. unfold countActionItems.
  induction l as [|ss l IH]; [done|]. rewrite fmap_cons. simpl.
  by rewrite Hf, IH.
Qed.

Lemma fmap_absent_id l subStepId (f : SubStep → SubStep) :
  subStepId ∉ id <$> l →
  (λ ss, if decide (id ss = subStepId) then f ss else ss) <$> l = l.
Proof.
  intros Hnotin. rewrite <- (list_fmap_id l) at 2. apply list_fmap_ext.
  intros i ss Hss. case_decide as Hid; [|done]. destruct Hnotin.
  rewrite <- Hid. apply list_elem_of_fmap_2. by eapply list_elem_of_lookup_2.
Qed.

Lemma applySubStepEdit_id edit (ss : SubStep) :
  id (applySubStepEdit edit ss) = id ss.
Proof. by destruct edit, ss. Qed.


End ActionItemFacts.

(** X19: deleting the action item that was just added undoes the
    addition: when the generated id is not yet the id of an action item
    of a sub-step with the given id, adding an action item and deleting
    it again leaves every sub-step as it was, except that an absent list
    of action items of the sub-steps with the id has become the empty
    list. *)
Theorem X19_remove_undoes_add_action_item
    {G : Type} {gen : UniqueIdGen G}
    (subStepId : string) (st : TaskDetailModal.ModalState) (g : G) :
  let newId := (generateUniqueId "action" g).1 in
  (∀ ss, ss ∈ TaskDetailModal.nodes st → id ss = subStepId →
         newId ∉ ai_id <$> orEmpty (actionItems ss)) →
  TaskDetailModal.nodes
    (TaskDetailModal.handleRemoveActionItem true true subStepId newId
       (TaskDetailModal.handleAddActionItem true subStepId st g).1)
  = withItemsPresent subStepId <$> TaskDetailModal.nodes st.
Proof.
  intros newId Hfresh.
  change (TaskDetailModal.nodes
            (TaskDetailModal.handleRemoveActionItem true true subStepId newId
               (TaskDetailModal.handleAddActionItem true subStepId st g).1))
    with ((λ ss, if decide (id ss = subStepId)
                 then with_actionItems
                        (filter (λ ai, ai_id ai ≠ newId) <$> actionItems ss)
                        ss
                 else ss)
            <$> TaskDetailModal.nodes
                  (TaskDetailModal.handleAddActionItem true subStepId st g).1).
  rewrite handleAddActionItem_nodes, <- list_fmap_compose.
  apply list_fmap_ext. intros i ss Hss. unfold compose, withItemsPresent.
  apply list_elem_of_lookup_2 in Hss.
  destruct (decide (id ss = subStepId)) as [Hid|Hid].
  - rewrite decide_True by by destruct ss.
    rewrite with_actionItems_twice. f_equal.
    replace (actionItems (with_actionItems _ ss))
      with (Some (orEmpty (actionItems ss)
                  ++ [{| ai_id := newId;
                         ai_text := TaskDetailModal.NEW_ACTION_ITEM_TEXT;
                         completed := false |}])) by by destruct ss.
    simpl. f_equal. rewrite filter_app, filter_cons_False, filter_nil.
    + rewrite app_nil_r. apply filter_all. apply Forall_forall.
      intros ai Hai Heq. apply (Hfresh ss Hss Hid). rewrite <- Heq.
      by apply list_elem_of_fmap_2.
    + simpl. by intros Hne.
  - by rewrite decide_False.
Qed.

Lemma X19_remove_undoes_add_action_item_witness :
  TaskDetailModal.nodes
    (TaskDetailModal.handleRemoveActionItem true true "B" "action-7"
       (TaskDetailModal.handleAddActionItem (gen := supplyGen) true "B"
          (mkState nodesWithItems) ["7"]).1)
  = withItemsPresent "B" <$> nodesWithItems.
Proof.
  apply (X19_remove_undoes_add_action_item (gen := supplyGen) "B"
           (mkState nodesWithItems) ["7"]).
  apply (proj1 (Forall_forall
                  (λ ss, id ss = "B"
                         → "action-7" ∉ ai_id <$> orEmpty (actionItems ss))
                  nodesWithItems)).
  apply (bool_decide_unpack _). vm_compute. exact I.
Defined.



(** X21: what the action-item handlers do to the action-item figure:
    with unique sub-step ids, adding an action item to a present
    sub-step raises it by exactly one; adding to an id that no sub-step
    carries leaves the sub-steps as they are, although an id has been
    drawn; editing an action item or saving its report keeps the figure;
    deleting never raises it. *)
Theorem X21_action_item_handlers_and_the_count
    {G : Type} {gen : UniqueIdGen G}
    (subStepId : string) (st : TaskDetailModal.ModalState) (g : G) :
  (uniqueIds (TaskDetailModal.nodes st) →
   subStepId ∈ id <$> TaskDetailModal.nodes st →
   TaskDetailModal.summaryActionItems
     (TaskDetailModal.handleAddActionItem true subStepId st g).1
   = S (TaskDetailModal.summaryActionItems st))
  ∧ ((subStepId ∉ id <$> TaskDetailModal.nodes st) →
     TaskDetailModal.nodes
       (TaskDetailModal.handleAddActionItem true subStepId st g).1
     = TaskDetailModal.nodes st
     ∧ (TaskDetailModal.handleAddActionItem true subStepId st g).2
       = (generateUniqueId "action" g).2)
  ∧ (∀ canEdit actionItemId updates,
       TaskDetailModal.summaryActionItems
         (TaskDetailModal.handleUpdateActionItem canEdit subStepId
            actionItemId updates st)
       = TaskDetailModal.summaryActionItems st)
  ∧ (∀ canEdit updatedItem,
       TaskDetailModal.summaryActionItems
         (TaskDetailModal.onSaveActionItemReport canEdit updatedItem st)
       = TaskDetailModal.summaryActionItems st)
  ∧ (∀ canEdit confirmed actionItemId,
       (TaskDetailModal.summaryActionItems
          (TaskDetailModal.handleRemoveActionItem canEdit confirmed
             subStepId actionItemId st)
        ≤ TaskDetailModal.summaryActionItems st)%nat).
Proof.
  assert (∀ canEdit sid actionItemId updates,
            TaskDetailModal.summaryActionItems
              (TaskDetailModal.handleUpdateActionItem canEdit sid
                 actionItemId updates st)
            = TaskDetailModal.summaryActionItems st) as Hupdate.
  { intros canEdit sid actionItemId updates.
    destruct canEdit; [|done]. rewrite !summaryActionItems_count.
    apply countActionItems_same. intros ss. case_decide; [|done].
    destruct ss as [? ? ? ? [items|] ? ? ? ?]; simpl; [|done].
    by rewrite length_fmap. }
  split_and!.
  - intros Hunique [card Hcard]%find_id_is_Some.
    rewrite !summaryActionItems_count, handleAddActionItem_nodes.
    pose proof (countActionItems_at _ _
                  (λ ss, with_actionItems
                           (Some (orEmpty (actionItems ss)
                                  ++ [{| ai_id := (generateUniqueId "action" g).1;
                                         ai_text :=
                                           TaskDetailModal.NEW_ACTION_ITEM_TEXT;
                                         completed := false |}])) ss)
                  card Hunique Hcard) as Hcount.
    cbv beta in Hcount.
    replace (length (orEmpty (actionItems (with_actionItems _ card))))
      with (S (length (orEmpty (actionItems card)))) in Hcount; [lia|].
    destruct card. simpl. rewrite length_app. simpl. lia.
  - intros Habsent. split; [|apply handleAddActionItem_gen].
    rewrite handleAddActionItem_nodes. by apply fmap_absent_id.
  - intros. apply Hupdate.
  - intros canEdit updatedItem. unfold TaskDetailModal.onSaveActionItemReport.
    destruct (list_find _ _) as [[? subStep]|]; [apply Hupdate|done].
  - intros canEdit confirmed actionItemId.
    destruct canEdit, confirmed; try done.
    rewrite !summaryActionItems_count. apply countActionItems_le.
    intros ss. case_decide; [|done].
    destruct ss as [? ? ? ? [items|] ? ? ? ?]; simpl; [|done].
    apply length_filter.
Qed.

Lemma X21_action_item_handlers_and_the_count_witness :
  TaskDetailModal.summaryActionItems
    (TaskDetailModal.handleAddActionItem (gen := supplyGen) true "B"
       (mkState nodesWithItems) ["7"]).1
  = S (TaskDetailModal.summaryActionItems (mkState nodesWithItems))
  ∧ TaskDetailModal.nodes
      (TaskDetailModal.handleAddActionItem (gen := supplyGen) true "ghost"
         (mkState nodesWithItems) ["7"]).1
    = nodesWithItems.
Proof.
  split.
  - apply (X21_action_item_handlers_and_the_count (gen := supplyGen) "B"
             (mkState nodesWithItems) ["7"]);
      apply (bool_decide_unpack _); vm_compute; exact I.
  - apply (X21_action_item_handlers_and_the_count (gen := supplyGen) "ghost"
             (mkState nodesWithItems) ["7"]).
    apply (bool_decide_unpack _). vm_compute. exact I.
Defined.



(** X23: an edit made in the detail panel reaches both copies: when the
    selected sub-step is the stored sub-step with its id, this still
    holds after [handleUpdateSubStep] with an edit of the panel, whatever
    sub-step id it is given. *)
Theorem X23_panel_edit_keeps_selection_in_sync
    (canEdit : bool) (subStepId : string) (edit : SubStepEdit)
    (st : TaskDetailModal.ModalState) :
  selectionInSync st →
  selectionInSync
    (TaskDetailModal.handleUpdateSubStep canEdit subStepId
       (applySubStepEdit edit) st).
Proof.
  unfold selectionInSync. intros Hsync sel'.
  destruct canEdit; [|apply Hsync].
  unfold TaskDetailModal.handleUpdateSubStep. simpl.
  assert (∀ w, find_id w
                 ((λ ss, if decide (id ss = subStepId)
                         then applySubStepEdit edit ss else ss)
                    <$> TaskDetailModal.nodes st)
               = (λ ss, if decide (id ss = subStepId)
                        then applySubStepEdit edit ss else ss)
                   <$> find_id w (TaskDetailModal.nodes st)) as Hfind.
  { intros w. apply find_id_fmap. intros ss.
    case_decide; [apply applySubStepEdit_id|done]. }
  case_bool_decide as Hsel.
  - destruct (TaskDetailModal.selectedSubStep st) as [sel|] eqn:Hs; [|done].
    simpl. intros [= <-].
    change (find_id (id (applySubStepEdit edit sel))
              ((λ ss, if decide (id ss = subStepId)
                      then applySubStepEdit edit ss else ss)
                 <$> TaskDetailModal.nodes st)
            = Some (applySubStepEdit edit sel)).
    rewrite Hfind, applySubStepEdit_id, (Hsync sel eq_refl). simpl.
    simpl in Hsel. injection Hsel as Hsel. by rewrite decide_True.
  - simpl. intros Hs.
    change (find_id (id sel')
              ((λ ss, if decide (id ss = subStepId)
                      then applySubStepEdit edit ss else ss)
                 <$> TaskDetailModal.nodes st)
            = Some sel').
    rewrite Hfind, (Hsync sel' Hs). simpl.
    rewrite decide_False; [done|]. intros Hid. apply Hsel.
    by rewrite Hs, <- Hid.
Qed.

Lemma X23_panel_edit_keeps_selection_in_sync_witness :
  selectionInSync
    (TaskDetailModal.handleUpdateSubStep true "B"
       (applySubStepEdit (EditText "renamed"))
       (TaskDetailModal.setSelectedSubStep
          (find_id "B" nodesWithItems) (mkState nodesWithItems))).
Proof.
  apply X23_panel_edit_keeps_selection_in_sync.
  intros sel. vm_compute. by intros [= <-].
Defined.

(** X24: a preview loses no item: the items shown are the first ones of
    the list, the number shown plus the number behind the "more" line is
    the length of the list, and the line is left out exactly when
    everything is shown. *)
Theorem X24_preview_accounts_for_every_item
    {A : Type} (n : nat) (l : list A) :
  Part000.previewShown n l `prefix_of` l
  ∧ (length (Part000.previewShown n l) + default 0%nat (Part000.previewMore n l)
     = length l)%nat
  ∧ (Part000.previewMore n l = None ↔ Part000.previewShown n l = l).
Proof.
  unfold Part000.previewShown, Part000.previewMore. split_and!.
  - exists (drop n l). by rewrite take_drop.
  - rewrite length_take. case_decide; simpl; lia.
  - case_decide as Hlen; split; try done.
    + intros Htake. apply (f_equal length) in Htake.
      rewrite length_take in Htake. lia.
    + intros _. apply take_ge. lia.
Qed.

(** X25: the card drag of [part_000] keeps the card in the container:
    after [handleMouseMove] every sub-step with the id of the dragged
    card is placed with its whole card inside a container that is at
    least as large as a card, the other sub-steps are untouched, and
    without a drag in progress or without a container nothing
    changes. *)
Theorem X25_card_drag_stays_in_container
    (containerRect : Container) (dragOffset : Point) (e : PointerEvent)
    (subStep : SubStep) (st : Part000.ModalState) :
  (200 ≤ rect_width containerRect)%Z →
  (120 ≤ rect_height containerRect)%Z →
  Forall2
    (λ ss ss',
       if decide (id ss = id subStep)
       then ∃ p, ss' = with_position (Some p) ss
                 ∧ insideCanvas {| width := rect_width containerRect;
                                   height := rect_height containerRect |} p
       else ss' = ss)
    (Part000.nodes st)
    (Part000.nodes
       (Part000.handleMouseMove true true (Some containerRect) dragOffset e
          subStep st))
  ∧ (∀ canEdit container,
       Part000.handleMouseMove false canEdit container dragOffset e subStep st
       = st)
  ∧ (∀ isDragging canEdit,
       Part000.handleMouseMove isDragging canEdit None dragOffset e subStep st
       = st).
Proof.
  intros Hwidth Hheight. split_and!.
  - rewrite Part000_handleMouseMove_nodes. apply Forall2_fmap_r.
    apply Forall2_same_length_lookup. split; [done|].
    intros i ss ss' Hss Hss'. assert (ss' = ss) as -> by congruence.
    unfold compose. cbv beta.
    destruct (decide (id ss = id subStep)); [|done].
    eexists. split; [done|].
    unfold insideCanvas, clamp, CARD_WIDTH, CARD_HEIGHT. simpl. lia.
  - done.
  - intros isDragging canEdit. unfold Part000.handleMouseMove.
    by destruct (negb isDragging || negb canEdit).
Qed.

Lemma X25_card_drag_stays_in_container_witness :
  Forall2
    (λ ss ss',
       if decide (id ss = "B")
       then ∃ p, ss' = with_position (Some p) ss
                 ∧ insideCanvas {| width := 1200; height := 800 |} p
       else ss' = ss)
    nodesWithItems
    (Part000.nodes
       (Part000.handleMouseMove true true (Some container0) origin
          {| clientX := 5000; clientY := -40 |}
          (mkSubStep "B" None None) (mkState000 nodesWithItems))).
Proof.
  apply (X25_card_drag_stays_in_container container0 origin
           {| clientX := 5000; clientY := -40 |} (mkSubStep "B" None None)
           (mkState000 nodesWithItems)); simpl; lia.
Defined.
